(** * Expander-graph hypergraph lifting: a shallow embedding

    Source files embedded here:
    - [modules/transforms/liftings/graph2hypergraph/expander_graph_lifting.py]
      ([ExpanderGraphLifting], [maybe_regular_expander],
      [is_regular_expander], [random_regular_expander_graph]);
    - [modules/transforms/data_transform.py] ([TRANSFORMS], [DataTransform]);
    - [modules/io/load/loaders.py] ([GraphLoader], [ManualGraphLoader]).

    Python integers are [Z]; node labels, which are always produced by
    [range], are [nat].  Python sets are [gset], the adjacency dictionary of a
    networkx [Graph] is a [gmap].  Exceptions are an explicit [outcome];
    the numpy random generator is threaded as explicit state.  Floating point
    numbers are idealised as real numbers. *)

From Stdlib Require Import ZArith Reals Lra Lia.
From stdpp Require Import gmap strings list sets pretty.

#[local] Set Warnings "-clear-no-such-hyp".

Local Open Scope Z_scope.
Local Open Scope nat_scope.

(** ** Exceptions and outcomes *)

Inductive exn : Type :=
  | NetworkXError (msg : string)
  | AssertionError (msg : string)
  | KeyError (key : string)
  | StopIteration.

(** A call returns, raises, or is still running when the fuel that bounds
    its [while] loops is used up. *)
Inductive outcome (A : Type) : Type :=
  | Return (a : A)
  | Raise (e : exn)
  | OutOfFuel.
Arguments Return {A} a.
Arguments Raise {A} e.
Arguments OutOfFuel {A}.

(** ** The random generator

    A numpy [RandomState]: [np.random.RandomState(seed)] makes a generator
    from an integer seed; [seed.permutation(m)] returns a permutation of
    [range(m)] and advances the generator. *)
Class RandomState (RS : Type) := {
  RandomState_init : Z → RS;
  permutation : nat → RS → list nat * RS;
  permutation_perm : ∀ m s, (permutation m s).1 ≡ₚ seq 0 m
}.

(** Code that may raise and that draws from a generator. *)
Definition M (RS A : Type) : Type := RS → outcome A * RS.

Definition ret {RS A} (a : A) : M RS A := λ s, (Return a, s).
Definition raise {RS A} (e : exn) : M RS A := λ s, (Raise e, s).
Definition bind {RS A B} (c : M RS A) (k : A → M RS B) : M RS B :=
  λ s, match c s with
       | (Return a, s') => k a s'
       | (Raise e, s') => (Raise e, s')
       | (OutOfFuel, s') => (OutOfFuel, s')
       end.

Notation "'do' x <- c ; k" := (bind c (λ x, k))
  (at level 10, x name, c at level 100, k at level 200).

(** ** networkx graphs

    [nx.Graph]: the node dictionary in insertion order and the adjacency
    dictionary.  The inner dictionaries carry no edge data here, so they are
    sets of neighbours; the order in which a node's neighbours were entered
    is not kept, and [edges] lists them in the order of [elements]. *)
Record Graph : Type := mkGraph {
  nodes : list nat;
  adj : gmap nat (gset nat)
}.

Definition Graph_new : Graph := mkGraph [] ∅.

Definition neighbors (G : Graph) (u : nat) : gset nat := adj G !!! u.

Definition add_node (u : nat) (G : Graph) : Graph :=
  if decide (u ∈ nodes G) then G
  else mkGraph (nodes G ++ [u]) (<[u := ∅]> (adj G)).

Definition add_nodes_from (us : list nat) (G : Graph) : Graph :=
  foldl (λ G u, add_node u G) G us.

(** [G.add_edges_from]: both end points become nodes, and each is entered in
    the other's neighbour dictionary. *)
Definition add_edge (e : nat * nat) (G : Graph) : Graph :=
  let G1 := add_node e.2 (add_node e.1 G) in
  let a1 := <[e.1 := {[e.2]} ∪ (adj G1 !!! e.1)]> (adj G1) in
  let a2 := <[e.2 := {[e.1]} ∪ (a1 !!! e.2)]> a1 in
  mkGraph (nodes G1) a2.

Definition add_edges_from (es : list (nat * nat)) (G : Graph) : Graph :=
  foldl (λ G e, add_edge e G) G es.

(** [nx.empty_graph(n)] with the default [create_using]. *)
Definition empty_graph (n : nat) : Graph := add_nodes_from (seq 0 n) Graph_new.

(** [G.degree]: a self-loop counts twice. *)
Definition degree (G : Graph) (u : nat) : nat :=
  size (neighbors G u) + (if decide (u ∈ neighbors G u) then 1 else 0).

(** [G.edges]: every edge once, reported from the end point that comes
    first in node order.  The neighbours of one node come in the order of
    [elements] here and in the order in which they were entered in
    networkx: the statements relate the columns of the incidence matrix to
    this list and do not fix the order within it. *)
Fixpoint edges_seen (G : Graph) (us : list nat) (seen : gset nat) : list (nat * nat) :=
  match us with
  | [] => []
  | u :: rest =>
      ((λ v, (u, v)) <$> filter (λ v, v ∉ seen) (elements (neighbors G u)))
      ++ edges_seen G rest ({[u]} ∪ seen)
  end.

Definition edges (G : Graph) : list (nat * nat) := edges_seen G (nodes G) ∅.

(** [nx.is_regular] (networkx < 3.3): [arbitrary_element] of a graph
    without nodes raises. *)
Definition is_regular (G : Graph) : outcome bool :=
  match nodes G with
  | [] => Raise StopIteration
  | n1 :: _ => Return (forallb (λ u, degree G u =? degree G n1) (nodes G))
  end.

(** [nx.utils.pairwise(iterable, cyclic=True)]. *)
Definition pairwise_cyclic (l : list nat) : list (nat * nat) :=
  match l with
  | [] => []
  | first :: b => zip l (b ++ [first])
  end.

(** ** [maybe_regular_expander] *)

Section Generator.
Context {RS : Type} `{!RandomState RS}.

(** The set comprehension building [new_edges]. *)
Definition new_edges_of (edges : gset (nat * nat)) (cycle : list nat) : gset (nat * nat) :=
  list_to_set
    (filter (λ e, (e ∉ edges) ∧ ((e.2, e.1) ∉ edges)) (pairwise_cyclic cycle)).

(** The inner [while len(edges) != (i + 1) * n] loop. *)
Fixpoint while_independent (fuel : nat) (n i : nat) (iterations : Z)
    (cycles : list (list nat)) (edges : gset (nat * nat))
    : M RS (list (list nat) * gset (nat * nat)) :=
  λ seed,
  if decide (size edges ≠ (i + 1) * n) then
    match fuel with
    | O => (OutOfFuel, seed)
    | S fuel' =>
        let iterations := (iterations - 1)%Z in
        let '(p, seed) := permutation (n - 1) seed in
        let cycle := p ++ [n - 1] in
        let new_edges := new_edges_of edges cycle in
        let '(cycles, edges) :=
          if decide (size new_edges = n)
          then (cycles ++ [cycle], edges ∪ new_edges)
          else (cycles, edges) in
        if decide (iterations = 0%Z)
        then (Raise (NetworkXError "Too many iterations in maybe_regular_expander"), seed)
        else while_independent fuel' n i iterations cycles edges seed
    end
  else (Return (cycles, edges), seed).

(** The outer [for i in range(d // 2)] loop. *)
Fixpoint for_cycles (fuel : nat) (n : nat) (max_tries : Z) (idxs : list nat)
    (cycles : list (list nat)) (edges : gset (nat * nat))
    : M RS (list (list nat) * gset (nat * nat)) :=
  match idxs with
  | [] => ret (cycles, edges)
  | i :: rest =>
      do ce <- while_independent fuel n i max_tries cycles edges;
      for_cycles fuel n max_tries rest ce.1 ce.2
  end.

(** [create_using] is left at its default, so the graph is an [nx.Graph]. *)
Definition maybe_regular_expander (fuel : nat) (n d max_tries : Z) : M RS Graph :=
  if decide (n < 1)%Z then
    raise (NetworkXError "n must be a positive integer")
  else if negb (bool_decide (d >= 2)%Z) then
    raise (NetworkXError "d must be greater than or equal to 2")
  else if negb (bool_decide (d `mod` 2 = 0)%Z) then
    raise (NetworkXError "d must be even")
  else if negb (bool_decide (n - 1 >= d)%Z) then
    raise (NetworkXError
             ("Need n-1>= d to have room for " +:+ pretty (d `div` 2)%Z
              +:+ " independent cycles with " +:+ pretty n +:+ " nodes"))
  else
    let G := empty_graph (Z.to_nat n) in
    if decide (n < 2)%Z then ret G
    else
      do ce <-
        for_cycles fuel (Z.to_nat n) max_tries (seq 0 (Z.to_nat (d `div` 2))) [] ∅;
      ret (add_edges_from (elements ce.2) G).

End Generator.

(** ** [is_regular_expander] and [random_regular_expander_graph] *)

#[export] Instance Rlt_decision (x y : R) : Decision (x < y)%R := Rlt_dec x y.

(** The right-hand side of the final comparison,
    [2 ** np.sqrt(d - 1) + epsilon].  [np.sqrt] of a negative number is
    [nan], and every comparison with [nan] is false. *)
Definition spectral_bound (d : nat) (epsilon : R) : option R :=
  if decide (Z.of_nat d - 1 < 0)%Z then None
  else Some (Rpower 2 (sqrt (IZR (Z.of_nat d - 1))) + epsilon)%R.

Definition below_bound (lambda2 : R) (bound : option R) : bool :=
  match bound with
  | Some b => bool_decide (Rabs lambda2 < b)%R
  | None => false
  end.

Section Expander.
Context {RS : Type} `{!RandomState RS}.

(** [eigsh(A, which="LM", k=2, return_eigenvectors=False)] applied to the
    adjacency matrix of the graph: the two eigenvalues of largest
    magnitude, or the exception the solver raises.  No start vector is
    passed, so the solver starts from a random one and its answers carry
    rounding noise that differs from run to run: [eigsh_LM2] stands for the
    answers given in the course of one run, and two runs are compared with
    two solvers. *)
Variable eigsh_LM2 : Graph → outcome (R * R).

Definition is_regular_expander (G : Graph) (epsilon : R) : outcome bool :=
  if decide (epsilon < 0)%R then
    Raise (NetworkXError "epsilon must be non negative")
  else
    match is_regular G with
    | Raise e => Raise e
    | OutOfFuel => OutOfFuel
    | Return false => Return false
    | Return true =>
        let d := degree G (hd 0 (nodes G)) in
        match eigsh_LM2 G with
        | Raise e => Raise e
        | OutOfFuel => OutOfFuel
        | Return lams =>
            let lambda2 := Rmin lams.1 lams.2 in
            Return (below_bound lambda2 (spectral_bound d epsilon))
        end
    end.

(** The [while not is_regular_expander(G, epsilon=epsilon)] loop; [fuel0]
    bounds the loops of each call to [maybe_regular_expander]. *)
Fixpoint while_not_expander (fuel0 fuel : nat) (n d : Z) (epsilon : R)
    (max_tries iterations : Z) (G : Graph) : M RS Graph :=
  λ seed,
  match is_regular_expander G epsilon with
  | Raise e => (Raise e, seed)
  | OutOfFuel => (OutOfFuel, seed)
  | Return true => (Return G, seed)
  | Return false =>
      match fuel with
      | O => (OutOfFuel, seed)
      | S fuel' =>
          let iterations := (iterations - 1)%Z in
          match maybe_regular_expander fuel0 n d max_tries seed with
          | (Raise e, seed) => (Raise e, seed)
          | (OutOfFuel, seed) => (OutOfFuel, seed)
          | (Return G, seed) =>
              if decide (iterations = 0%Z)
              then (Raise (NetworkXError
                             "Too many iterations in random_regular_expander_graph"),
                    seed)
              else while_not_expander fuel0 fuel' n d epsilon max_tries iterations G seed
          end
      end
  end.

Definition random_regular_expander_graph (fuel : nat) (n d : Z) (epsilon : R)
    (max_tries : Z) : M RS Graph :=
  do G <- maybe_regular_expander fuel n d max_tries;
  while_not_expander fuel fuel n d epsilon max_tries max_tries G.

(** The [seed] argument as the caller writes it, and what the decorator
    [np_random_state("seed")] makes of it: no seed stands for numpy's
    global generator, which the call then advances; an integer seeds a
    fresh generator.  The state threaded through [M] at this level is the
    state of the global generator. *)
Inductive seed_arg : Type :=
  | SeedNone
  | SeedInt (z : Z).

Definition np_random_state {A} (f : M RS A) (seed : seed_arg) : M RS A :=
  λ global,
  match seed with
  | SeedNone => f global
  | SeedInt z => ((f (RandomState_init z)).1, global)
  end.

End Expander.

(** ** The incidence matrix and the sparse tensor *)

(** A scipy sparse matrix: its shape and its stored entries.  The only
    value ever stored is the weight 1, kept as an integer. *)
Record sparse_matrix : Type := mkSparse {
  shape : nat * nat;
  stored : gmap (nat * nat) Z
}.

Definition set_entry (r c : nat) (v : Z) (A : sparse_matrix) : sparse_matrix :=
  mkSparse (shape A) (<[(r, c) := v]> (stored A)).

(** [node_index[u]]: the position of [u] in the node list. *)
Fixpoint node_index (nodelist : list nat) (u : nat) : nat :=
  match nodelist with
  | [] => 0
  | w :: rest => if decide (w = u) then 0 else S (node_index rest u)
  end.

(** [networkx.incidence_matrix(G)]: default node and edge lists, not
    oriented.  The body of its loop over [enumerate(edgelist)]: a self-loop
    leaves its column empty. *)
Definition incidence_step (nodelist : list nat) (A : sparse_matrix)
    (ie : nat * (nat * nat)) : sparse_matrix :=
  let '(ei, (u, v)) := ie in
  if decide (u = v) then A
  else set_entry (node_index nodelist v) ei 1
         (set_entry (node_index nodelist u) ei 1 A).

Definition incidence_matrix (G : Graph) : sparse_matrix :=
  let nodelist := nodes G in
  let edgelist := edges G in
  foldl (incidence_step nodelist)
        (mkSparse (length nodelist, length edgelist) ∅)
        (imap (λ ei e, (ei, e)) edgelist).

(** [.tocoo()]: [incidence_matrix] hands the matrix over in csc format, so
    the stored entries come column by column, by increasing row within a
    column. *)
Record coo_matrix : Type := mkCoo {
  coo_row : list nat;
  coo_col : list nat;
  coo_data : list Z
}.

Definition coo_entries (A : sparse_matrix) : list (nat * nat * Z) :=
  c ← seq 0 (shape A).2;
  r ← seq 0 (shape A).1;
  match stored A !! (r, c) with
  | Some v => [(r, c, v)]
  | None => []
  end.

Definition tocoo (A : sparse_matrix) : coo_matrix :=
  let es := coo_entries A in
  mkCoo ((λ e, e.1.1) <$> es) ((λ e, e.1.2) <$> es) (snd <$> es).

(** [torch.sparse_coo_tensor(indices, values)]: no size is given, so each
    dimension is one more than the largest index that occurs in it. *)
Record sparse_tensor : Type := mkTensor {
  indices : list nat * list nat;
  values : list Z;
  tensor_size : nat * nat
}.

Definition inferred_dim (idx : list nat) : nat :=
  match idx with
  | [] => 0
  | _ => S (foldr Nat.max 0 idx)
  end.

Definition sparse_coo_tensor (coo_indices : list nat * list nat) (coo_values : list Z)
    : sparse_tensor :=
  mkTensor coo_indices coo_values
           (inferred_dim coo_indices.1, inferred_dim coo_indices.2).

(** The nodes a column (hyperedge) is incident to. *)
Definition column_nodes (T : sparse_tensor) (c : nat) : gset nat :=
  list_to_set (fst <$> filter (λ rc, rc.2 = c) (zip (indices T).1 (indices T).2)).

(** The columns (hyperedges) a node is incident to. *)
Definition row_columns (T : sparse_tensor) (r : nat) : gset nat :=
  list_to_set (snd <$> filter (λ rc, rc.1 = r) (zip (indices T).1 (indices T).2)).

(** ** [ExpanderGraphLifting] *)

Inductive pyval : Type :=
  | PyNone
  | PyStr (s : string)
  | PyInt (z : Z).

Module ExpanderGraphLifting.
Section ExpanderGraphLifting.
Context {RS : Type} `{!RandomState RS}.
Variable eigsh_LM2 : Graph → outcome (R * R).

(** The base class [Graph2HypergraphLifting] is not part of the sources
    at hand: its initialiser is a parameter. *)
Context {Base : Type}.
Variable super_init : gmap string pyval → outcome Base.

Record t : Type := mk {
  base : Base;
  node_degree : Z
}.

Definition __init__ (node_degree : Z) (kwargs : gmap string pyval) : outcome t :=
  match super_init kwargs with
  | Raise e => Raise e
  | OutOfFuel => OutOfFuel
  | Return b =>
      if bool_decide (node_degree `mod` 2 = 0)%Z then Return (mk b node_degree)
      else Raise (AssertionError "Only even node degree are supported.")
  end.

(** [torch_geometric.data.Data]: the fields the lifting reads. *)
Record Data {X : Type} : Type := mkData {
  num_nodes : Z;
  x : X
}.
Arguments Data X : clear implicits.

Record topology {X : Type} : Type := mkTopology {
  incidence_hyperedges : sparse_tensor;
  num_hyperedges : nat;
  x_0 : X
}.
Arguments topology X : clear implicits.

(** [random_regular_expander_graph] is called with [n] and [d] only:
    [epsilon = 0], [max_tries = 100] and no seed. *)
Definition lift_topology {X} (fuel : nat) (self : t) (data : Data X) : M RS (topology X) :=
  do expander_graph <-
    np_random_state
      (random_regular_expander_graph eigsh_LM2 fuel (num_nodes data) (node_degree self)
         0%R 100%Z)
      SeedNone;
  let incidence_matrix := tocoo (incidence_matrix expander_graph) in
  let coo_indices := (coo_row incidence_matrix, coo_col incidence_matrix) in
  let coo_values := coo_data incidence_matrix in
  let incidence_matrix := sparse_coo_tensor coo_indices coo_values in
  ret (mkTopology X incidence_matrix (tensor_size incidence_matrix).2 (x data)).

End ExpanderGraphLifting.

Arguments t : clear implicits.
Arguments Data : clear implicits.
Arguments topology : clear implicits.
Arguments mkData {X} num_nodes x.
Arguments mkTopology {X} incidence_hyperedges num_hyperedges x_0.
Arguments __init__ {Base} super_init node_degree kwargs.
Arguments lift_topology {RS _} eigsh_LM2 {Base X} fuel self data.
End ExpanderGraphLifting.

(** ** The transform registry and [DataTransform] *)

(** The exceptions of the data pipeline that are not in [exn], and the
    result of a call that has no loop of its own to run out of fuel in. *)
Inductive pyexn : Type :=
  | Exn (e : exn)
  | TypeError (msg : string)
  | NotImplementedError (msg : string)
  | UnboundLocalError (variable : string).

Inductive result (A : Type) : Type :=
  | Ok (a : A)
  | Err (e : pyexn).
Arguments Ok {A} a.
Arguments Err {A} e.

Definition result_bind {A B} (c : result A) (k : A → result B) : result B :=
  match c with
  | Ok a => k a
  | Err e => Err e
  end.

Notation "'try' x <- c ; k" := (result_bind c (λ x, k))
  (at level 10, x name, c at level 100, k at level 200).

Inductive transform_class : Type :=
  | HypergraphKHopLifting
  | HypergraphKNearestNeighborsLifting
  | SimplicialNeighborhoodLifting
  | SimplicialCliqueLifting
  | CellCyclesLifting
  | SumLifting
  | IdentityTransform
  | InfereKNNConnectivity
  | InfereRadiusConnectivity
  | NodeDegrees
  | OneHotDegreeFeatures
  | EqualGausFeatures
  | NodeFeaturesToFloat
  | CalculateSimplicialCurvature
  | KeepOnlyConnectedComponent
  | ExpanderGraphLifting_class.

Definition TRANSFORMS : gmap string transform_class :=
  list_to_map [
    ("HypergraphKHopLifting", HypergraphKHopLifting);
    ("HypergraphKNearestNeighborsLifting", HypergraphKNearestNeighborsLifting);
    ("SimplicialNeighborhoodLifting", SimplicialNeighborhoodLifting);
    ("SimplicialCliqueLifting", SimplicialCliqueLifting);
    ("CellCyclesLifting", CellCyclesLifting);
    ("SumLifting", SumLifting);
    ("Identity", IdentityTransform);
    ("InfereKNNConnectivity", InfereKNNConnectivity);
    ("InfereRadiusConnectivity", InfereRadiusConnectivity);
    ("NodeDegrees", NodeDegrees);
    ("OneHotDegreeFeatures", OneHotDegreeFeatures);
    ("EqualGausFeatures", EqualGausFeatures);
    ("NodeFeaturesToFloat", NodeFeaturesToFloat);
    ("CalculateSimplicialCurvature", CalculateSimplicialCurvature);
    ("KeepOnlyConnectedComponent", KeepOnlyConnectedComponent)
  ].

Module DataTransform.
Section DataTransform.
(** Calling a registered class with the keyword arguments: the classes
    are outside this development, so the call is a parameter. *)
Context {Transform : Type}.
Variable construct : transform_class → gmap string pyval → outcome Transform.

Record t : Type := mk {
  parameters : gmap string pyval;
  transform : option Transform
}.

Definition __init__ (transform_name : option string) (kwargs : gmap string pyval)
    : outcome t :=
  let kwargs :=
    <["transform_name" := from_option PyStr PyNone transform_name]> kwargs in
  match transform_name with
  | None => Return (mk kwargs None)
  | Some name =>
      match TRANSFORMS !! name with
      | None => Raise (KeyError name)
      | Some cls =>
          match construct cls kwargs with
          | Return tr => Return (mk kwargs (Some tr))
          | Raise e => Raise e
          | OutOfFuel => OutOfFuel
          end
      end
  end.

(** Calling the stored transform on the data is a parameter as well; when
    no transform is stored the call is a call of [None]. *)
Context {D : Type}.
Variable call : Transform → D → result D.

Definition forward (self : t) (data : D) : result D :=
  match transform self with
  | Some tr => call tr data
  | None => Err (TypeError "'NoneType' object is not callable")
  end.

End DataTransform.

Arguments t : clear implicits.
Arguments __init__ {Transform} construct transform_name kwargs.
Arguments forward {Transform D} call self data.
End DataTransform.

(** ** The loaders of [modules/io/load/loaders.py] *)

(** [str.lower] on the letters A to Z; the names it is compared with hold
    no other letter that a character outside A to Z lowers to. *)
Definition lower_ascii (c : Ascii.ascii) : Ascii.ascii :=
  let n := Ascii.nat_of_ascii c in
  if (65 <=? n) && (n <=? 90) then Ascii.ascii_of_nat (n + 32) else c.

Fixpoint lower (s : string) : string :=
  match s with
  | EmptyString => EmptyString
  | String c s' => String (lower_ascii c) (lower s')
  end.

(** Whether the string ends with the separator, character 47. *)
Fixpoint endswith_sep (s : string) : bool :=
  match s with
  | EmptyString => false
  | String c EmptyString => bool_decide (c = Ascii.ascii_of_nat 47)
  | String _ s' => endswith_sep s'
  end.

(** [os.path.join] of two components (posix). *)
Definition os_path_join (a b : string) : string :=
  if String.prefix "/" b then b
  else if bool_decide (a = "") || endswith_sep a then a +:+ b
  else a +:+ "/" +:+ b.

(** A networkx graph with its dictionaries in insertion order, for the one
    place where the order of the edges is handed on: every node with its
    neighbours, in the order in which they were entered. *)
Definition ordered_graph : Type := list (nat * list nat).

Definition ordered_add_node (u : nat) (G : ordered_graph) : ordered_graph :=
  if decide (u ∈ G.*1) then G else G ++ [(u, [])].

Definition ordered_add_neighbor (u v : nat) (G : ordered_graph) : ordered_graph :=
  (λ '(w, nbrs),
     if decide (w = u) then (w, if decide (v ∈ nbrs) then nbrs else nbrs ++ [v])
     else (w, nbrs)) <$> G.

Definition ordered_add_edge (e : nat * nat) (G : ordered_graph) : ordered_graph :=
  ordered_add_neighbor e.2 e.1
    (ordered_add_neighbor e.1 e.2 (ordered_add_node e.2 (ordered_add_node e.1 G))).

Fixpoint ordered_edges_seen (G : ordered_graph) (seen : list nat) : list (nat * nat) :=
  match G with
  | [] => []
  | (u, nbrs) :: rest =>
      ((λ v, (u, v)) <$> filter (λ v, v ∉ seen) nbrs)
      ++ ordered_edges_seen rest (u :: seen)
  end.

Definition ordered_edges (G : ordered_graph) : list (nat * nat) :=
  ordered_edges_seen G [].

(** The fields of the [torch_geometric.data.Data] that
    [manual_simple_graph] builds; the features are whole numbers stored as
    floats. *)
Record manual_data : Type := mkManualData {
  manual_x : list (list Z);
  manual_edge_index : list nat * list nat;
  manual_num_nodes : nat;
  manual_y : list Z
}.

(** The pairs [(t[i], t[j])] with [i < j]. *)
Fixpoint later_pairs (t : list nat) : list (nat * nat) :=
  match t with
  | [] => []
  | a :: rest => ((λ b, (a, b)) <$> rest) ++ later_pairs rest
  end.

Definition manual_simple_graph : manual_data :=
  let vertices := seq 0 8 in
  let y := [0; 1; 1; 1; 0; 0; 0; 0]%Z in
  let edges :=
    [(0, 1); (0, 2); (0, 4); (1, 2); (2, 3); (5, 2); (5, 6); (6, 3); (5, 7);
     (2, 7); (0, 7)] in
  let tetrahedrons := [[0; 1; 2; 4]] in
  let edges := edges ++ (tetrahedrons ≫= later_pairs) in
  let G := foldl (λ G u, ordered_add_node u G) [] vertices in
  let G := foldl (λ G e, ordered_add_edge e G) G edges in
  let edge_list := ((ordered_edges G).*1, (ordered_edges G).*2) in
  let x := (λ v, [v]) <$> [1; 5; 10; 50; 100; 500; 1000; 5000]%Z in
  mkManualData x edge_list (length vertices) y.

(** The split indices that the ZINC and AQSOL branches build from the
    lengths of the three parts ([np.arange] as a list). *)
Definition fixed_split_idx (n_train n_val n_test : nat) : gmap string (list nat) :=
  <["test" := seq (n_train + n_val) (n_train + n_val + n_test - (n_train + n_val))]>
    (<["valid" := seq n_train (n_train + n_val - n_train)]>
       {["train" := seq 0 n_train]}).

(** The names that [GraphLoader.load] tells apart. *)
Definition cocitation_names : list string := ["cora"; "citeseer"; "pubmed"].

Definition tu_names : list string :=
  ["MUTAG"; "ENZYMES"; "PROTEINS"; "COLLAB"; "IMDB-BINARY"; "IMDB-MULTI";
   "REDDIT-BINARY"; "NCI1"; "NCI109"].

Record loader_parameters : Type := mkParameters {
  data_dir : string;
  data_name : string;
  data_type : string;
  split_type : string
}.

Section Loaders.
(** Datasets, transform configurations, and the collaborators from
    [torch_geometric] and from modules that are not at hand. *)
Context {Dataset Config : Type}.
Variable Planetoid : string → string → result Dataset.
Variable TUDataset : string → string → bool → result Dataset.
Variable ZINC : string → bool → string → result Dataset.
Variable AQSOL : string → string → result Dataset.
Variable Preprocessor : string → Dataset + manual_data → Config → result Dataset.
Variable load_graph_cocitation_split : Dataset → loader_parameters → result Dataset.
Variable load_graph_tudataset_split : Dataset → loader_parameters → result Dataset.
Variable assing_train_val_test_mask_to_graphs :
  Dataset → gmap string (list nat) → result Dataset.
Variable len : Dataset → nat.
Variable concat : Dataset → Dataset → Dataset.

(** A loader after its [__init__]: the parameters and the transforms
    configuration, which may be [None]. *)
Record loader : Type := mkLoader {
  parameters : loader_parameters;
  transforms_config : option Config
}.

(** [ManualGraphLoader.load]: [processor_dataset] is bound only when there
    is a transforms configuration. *)
Definition ManualGraphLoader_load (self : loader) : result Dataset :=
  let data := manual_simple_graph in
  match transforms_config self with
  | Some cfg =>
      let data_dir :=
        os_path_join (data_dir (parameters self)) (data_name (parameters self)) in
      Preprocessor data_dir (inr data) cfg
  | None => Err (UnboundLocalError "processor_dataset")
  end.

(** The steps that the ZINC and AQSOL branches share once the three parts
    are loaded. *)
Definition join_and_split (self : loader) (dir : string) (d0 d1 d2 : Dataset)
    : result Dataset :=
  let split_idx := fixed_split_idx (len d0) (len d1) (len d2) in
  let joined_dataset := concat (concat d0 d1) d2 in
  try joined_dataset <-
    match transforms_config self with
    | Some cfg => Preprocessor dir (inl joined_dataset) cfg
    | None => Ok joined_dataset
    end;
  assing_train_val_test_mask_to_graphs joined_dataset split_idx.

Definition GraphLoader_load (self : loader) : result Dataset :=
  let p := parameters self in
  let dir := os_path_join (data_dir p) (data_name p) in
  if bool_decide (lower (data_name p) ∈ cocitation_names)
     && bool_decide (data_type p = "cocitation") then
    try dataset <- Planetoid (data_dir p) (data_name p);
    try dataset <-
      match transforms_config self with
      | Some cfg => Preprocessor dir (inl dataset) cfg
      | None => Ok dataset
      end;
    load_graph_cocitation_split dataset p
  else if bool_decide (data_name p ∈ tu_names) then
    try dataset <- TUDataset (data_dir p) (data_name p) false;
    try dataset <-
      match transforms_config self with
      | Some cfg => Preprocessor dir (inl dataset) cfg
      | None => Ok dataset
      end;
    load_graph_tudataset_split dataset p
  else if bool_decide (data_name p ∈ ["ZINC"]) then
    try d0 <- ZINC (data_dir p) true "train";
    try d1 <- ZINC (data_dir p) true "val";
    try d2 <- ZINC (data_dir p) true "test";
    if bool_decide (split_type p = "fixed") then join_and_split self dir d0 d1 d2
    else Err (Exn (AssertionError ""))
  else if bool_decide (data_name p ∈ ["AQSOL"]) then
    try d0 <- AQSOL (data_dir p) "train";
    try d1 <- AQSOL (data_dir p) "val";
    try d2 <- AQSOL (data_dir p) "test";
    join_and_split self dir d0 d1 d2
  else if bool_decide (data_name p ∈ ["manual"]) then
    ManualGraphLoader_load (mkLoader p (transforms_config self))
  else
    Err (NotImplementedError ("Dataset " +:+ data_name p +:+ " not implemented")).

End Loaders.

Arguments loader : clear implicits.
Arguments mkLoader {Config} parameters transforms_config.

(** ** A concrete generator: a tape of raw draws

    The state is the list of raw numbers still to be drawn (zeros once the
    list is used up); a permutation of [range(m)] is built by inserting
    [0], [1], ... at the drawn positions. *)
Fixpoint insert_at (i x : nat) (l : list nat) : list nat :=
  match i, l with
  | O, _ => x :: l
  | S _, [] => [x]
  | S i', y :: l' => y :: insert_at i' x l'
  end.

Fixpoint tape_permutation (m : nat) (s : list nat) : list nat * list nat :=
  match m with
  | O => ([], s)
  | S k =>
      let '(p, s') := tape_permutation k s in
      (insert_at (hd 0 s' `mod` S k) k p, tl s')
  end.

(** Seeding: a short linear congruential sequence started at the seed. *)
Fixpoint lcg (k : nat) (z : Z) : list nat :=
  match k with
  | O => []
  | S k' =>
      let z' := ((1103515245 * z + 12345) `mod` 2147483648)%Z in
      Z.to_nat ((z' `div` 65536) `mod` 256)%Z :: lcg k' z'
  end.

Definition tape_init (z : Z) : list nat := lcg 64 z.

(** ** Notions used in the statements *)

(** The position after [i] on a cycle of length [len]. *)
Definition next_index (len i : nat) : nat := if decide (S i = len) then 0 else S i.

(** After [k] accepted cycles on [n] nodes: [k * n] ordered pairs over the
    nodes, never a pair together with its reverse, and every node is the
    first component of [k] pairs and the second component of [k] pairs. *)
Definition edge_inv (n k : nat) (E : gset (nat * nat)) : Prop :=
  size E = k * n
  ∧ (∀ u v, (u, v) ∈ E → u < n ∧ v < n ∧ (v, u) ∉ E)
  ∧ (∀ w, w < n →
       size (filter (λ e, e.1 = w) E) = k ∧ size (filter (λ e, e.2 = w) E) = k).

(** The graph that [maybe_regular_expander] returns for the edge set [E]. *)
Definition graph_of (n : nat) (E : gset (nat * nat)) : Graph :=
  add_edges_from (elements E) (empty_graph n).

(** An ordered pair written with its smaller component first. *)
Definition sorted_pair (e : nat * nat) : nat * nat := (e.1 `min` e.2, e.1 `max` e.2).

(** No self-loop, and no edge listed twice, in either direction. *)
Definition simple (G : Graph) : Prop :=
  (∀ u, u ∉ neighbors G u)
  ∧ NoDup (edges G)
  ∧ (∀ u v, (u, v) ∈ edges G → (v, u) ∉ edges G).

Section Generated.
Context {RS : Type} `{!RandomState RS}.

(** [G] is the graph some call of [maybe_regular_expander] returned. *)
Definition generated (fuel : nat) (n d max_tries : Z) (G : Graph) : Prop :=
  ∃ seed seed' : RS, maybe_regular_expander fuel n d max_tries seed = (Return G, seed').

End Generated.

(** A cycle through all of [0 .. n-1] that is written with [n - 1] last, as
    the generator writes it. *)
Definition hamiltonian (n : nat) (c : list nat) : Prop :=
  c ≡ₚ seq 0 n ∧ last c = Some (n - 1).

(** [u] and [v] follow one another on the cycle [c], in one direction or the
    other. *)
Definition cycle_edge (c : list nat) (u v : nat) : Prop :=
  (u, v) ∈ pairwise_cyclic c ∨ (v, u) ∈ pairwise_cyclic c.

(** The list [cycles] against the set [edges]: every cycle is Hamiltonian,
    the set holds the pairs of the cycles and nothing else, and no two
    cycles of the list share an edge. *)
Definition cycles_inv (n : nat) (cycles : list (list nat)) (E : gset (nat * nat)) : Prop :=
  Forall (hamiltonian n) cycles
  ∧ (∀ e, e ∈ E ↔ ∃ c, c ∈ cycles ∧ e ∈ pairwise_cyclic c)
  ∧ (∀ i j ci cj u v, i < j → cycles !! i = Some ci → cycles !! j = Some cj →
       cycle_edge ci u v → ¬ cycle_edge cj u v).

(** The invariant of both loops: [k] cycles have been accepted. *)
Definition loop_inv (n k : nat) (cycles : list (list nat)) (E : gset (nat * nat)) : Prop :=
  edge_inv n k E ∧ cycles_inv n cycles E ∧ length cycles = k.

(** One node reaches another along edges of the graph. *)
Definition connected (G : Graph) : Prop :=
  ∀ u v, u ∈ nodes G → v ∈ nodes G → rtc (λ a b, b ∈ neighbors G a) u v.

(** The comparison [is_regular_expander] ends with, for degree [d]. *)
Definition spectral_test (eigsh_LM2 : Graph → outcome (R * R)) (d : Z) (epsilon : R)
    (G : Graph) : outcome bool :=
  match eigsh_LM2 G with
  | Return lams =>
      Return (bool_decide
                (Rabs (Rmin lams.1 lams.2) < Rpower 2 (sqrt (IZR (d - 1))) + epsilon)%R)
  | Raise e => Raise e
  | OutOfFuel => OutOfFuel
  end.

(** The tensor that [lift_topology] builds from a sparse matrix. *)
Definition tensor_of (A : sparse_matrix) : sparse_tensor :=
  let m := tocoo A in sparse_coo_tensor (coo_row m, coo_col m) (coo_data m).

(** A solver that gives the same answer for every graph; it stands for the
    eigenvalue solver in examples where all graphs met have that spectrum. *)
Definition eigsh_const (lams : R * R) : Graph → outcome (R * R) := λ _, Return lams.

(** The rook's graph on a 9 by 3 board: node [3 * a + b] is the square in
    row [a] and column [b]; two squares are adjacent when they share a row
    or a column.  It is 10-regular, and its adjacency matrix has the
    eigenvalues 10, 7, 1 and -2. *)
Definition rook_9_3 : Graph :=
  add_edges_from
    (i ← seq 0 27; j ← seq 0 27;
     if decide (i < j ∧ (i `div` 3 = j `div` 3 ∨ i `mod` 3 = j `mod` 3))
     then [(i, j)] else [])
    (empty_graph 27).

Definition rook_9_3_vector (u : nat) : Z := if decide (u `mod` 3 = 0) then 2 else (-1).

Definition adjacency_times (G : Graph) (vec : nat → Z) (u : nat) : Z :=
  foldr (λ w acc, (vec w + acc)%Z) 0%Z (elements (neighbors G u)).

(** The graph of one cycle. *)
Definition cycle_graph (c : list nat) : Graph :=
  add_edges_from (pairwise_cyclic c) (empty_graph (length c)).

(** The answer of the eigenvalue solver on a cycle with five nodes, whose
    adjacency eigenvalues are [2 cos (2 π j / 5)]: 2 and, twice each, about
    0.618 and -1.618. *)
Definition eigsh_pentagon : Graph → outcome (R * R) :=
  eigsh_const (2, -1618 / 1000)%R.

Definition lifting_2 : ExpanderGraphLifting.t unit := ExpanderGraphLifting.mk tt 2.

Definition pentagon_data : ExpanderGraphLifting.Data (list Z) :=
  ExpanderGraphLifting.mkData 5 [10; 20; 30; 40; 50]%Z.

Definition pentagon_topology (rows cols : list nat)
    : ExpanderGraphLifting.topology (list Z) :=
  ExpanderGraphLifting.mkTopology
    (mkTensor (rows, cols) [1; 1; 1; 1; 1; 1; 1; 1; 1; 1]%Z (5, 5))
    5 [10; 20; 30; 40; 50]%Z.

(** A generator together with the number of permutations that have been
    drawn from it: the draws are those of the generator itself. *)
#[export] Instance counted_RandomState {RS : Type} `{!RandomState RS}
    : RandomState (RS * nat) :=
  {| RandomState_init := λ z, (RandomState_init z, 0);
     permutation := λ m s, ((permutation m s.1).1, ((permutation m s.1).2, S s.2));
     permutation_perm := λ m s, permutation_perm m s.1 |}.

(** The hyperedges of an incidence tensor, as sets of nodes, column by
    column. *)
Definition hyperedges (T : sparse_tensor) : list (gset nat) :=
  column_nodes T <$> seq 0 (tensor_size T).2.

(** The answers of the eigenvalue solver on a cycle with four nodes, whose
    adjacency eigenvalues are 2, 0, 0 and -2: the exact ones, and ones with
    an error in the last binary digit of a double. *)
Definition eigsh_square : Graph → outcome (R * R) := eigsh_const (2, -2)%R.

Definition eigsh_square_rounded : Graph → outcome (R * R) :=
  eigsh_const (2, -2 + 1 / 4503599627370496)%R.

Definition square_data : ExpanderGraphLifting.Data (list Z) :=
  ExpanderGraphLifting.mkData 4 [10; 20; 30; 40]%Z.

(** Stand-ins for the collaborators of the loaders, to run [load] on: a
    dataset is the list of the numbers of its graphs. *)
Definition toy_Planetoid (root name : string) : result (list nat) := Ok [0].

Definition toy_TUDataset (root name : string) (use_node_attr : bool)
    : result (list nat) := Ok [0; 1].

Definition toy_ZINC (root : string) (subset : bool) (split : string)
    : result (list nat) :=
  if bool_decide (split = "train") then Ok [0; 1; 2]
  else if bool_decide (split = "val") then Ok [3]
  else Ok [4; 5].

Definition toy_AQSOL (root split : string) : result (list nat) :=
  toy_ZINC root true split.

Definition toy_Preprocessor (data_dir : string) (data : list nat + manual_data)
    (cfg : unit) : result (list nat) :=
  match data with
  | inl dataset => Ok dataset
  | inr data => Ok [manual_num_nodes data]
  end.

Definition toy_split (dataset : list nat) (p : loader_parameters)
    : result (list nat) := Ok dataset.

Definition toy_mask (dataset : list nat) (split_idx : gmap string (list nat))
    : result (list nat) := Ok dataset.

Definition toy_load : loader unit → result (list nat) :=
  GraphLoader_load toy_Planetoid toy_TUDataset toy_ZINC toy_AQSOL toy_Preprocessor
    toy_split toy_split toy_mask length app.

(** * Properties *)

(** ** The tape generator is a generator *)

Lemma insert_at_perm i x l : insert_at i x l ≡ₚ x :: l.
Proof.
  revert i; induction l as [|y l IH]; intros [|i]; simpl; try done.
  rewrite IH. apply perm_swap.
Qed.

Lemma tape_permutation_perm m s : (tape_permutation m s).1 ≡ₚ seq 0 m.
Proof.
  induction m as [|k IH]; [done|].
  cbn [tape_permutation]. destruct (tape_permutation k s) as [p s'].
  cbn [fst] in *. rewrite insert_at_perm, IH, seq_S.
  apply Permutation_cons_append.
Qed.

#[export] Instance tape_RandomState : RandomState (list nat) :=
  {| RandomState_init := tape_init;
     permutation := tape_permutation;
     permutation_perm := tape_permutation_perm |}.

(** ** Argument validation of [maybe_regular_expander] *)

Section Validation.
Context {RS : Type} `{!RandomState RS}.
Implicit Types (n d max_tries : Z) (seed : RS).

Lemma bind_raise {A B} (c : M RS A) (k : A → M RS B) e seed seed' :
  c seed = (Raise e, seed') → bind c k seed = (Raise e, seed').
Proof. unfold bind. by intros ->. Qed.

Lemma bind_return {A B} (c : M RS A) (k : A → M RS B) a seed seed' :
  c seed = (Return a, seed') → bind c k seed = k a seed'.
Proof. unfold bind. by intros ->. Qed.

Lemma maybe_regular_expander_invalid fuel n d max_tries seed :
  (d `mod` 2 ≠ 0 ∨ d < 2 ∨ n - 1 < d ∨ n < 1)%Z →
  ∃ msg, maybe_regular_expander fuel n d max_tries seed
         = (Raise (NetworkXError msg), seed).
Proof.
  intros Hbad. unfold maybe_regular_expander.
  destruct (decide (n < 1)%Z); [by eexists|].
  case_bool_decide; simpl; [|by eexists].
  case_bool_decide; simpl; [|by eexists].
  case_bool_decide; simpl; [|by eexists].
  lia.
Qed.

(** Past the four checks the arguments satisfy the contract. *)
Lemma maybe_regular_expander_valid fuel n d max_tries seed :
  (d `mod` 2 = 0 ∧ 2 ≤ d ∧ d ≤ n - 1)%Z →
  maybe_regular_expander fuel n d max_tries seed
  = bind (for_cycles fuel (Z.to_nat n) max_tries (seq 0 (Z.to_nat (d `div` 2))) [] ∅)
         (λ ce, ret (add_edges_from (elements ce.2) (empty_graph (Z.to_nat n))))
         seed.
Proof.
  intros (Heven & Hd & Hn). unfold maybe_regular_expander.
  destruct (decide (n < 1)%Z); [lia|].
  do 3 (case_bool_decide; simpl; [|lia]).
  destruct (decide (n < 2)%Z); [lia|done].
Qed.

Lemma maybe_regular_expander_returns_valid fuel n d max_tries seed G seed' :
  maybe_regular_expander fuel n d max_tries seed = (Return G, seed') →
  (d `mod` 2 = 0 ∧ 2 ≤ d ∧ d ≤ n - 1)%Z.
Proof.
  intros Hret.
  destruct (decide (d `mod` 2 ≠ 0 ∨ d < 2 ∨ n - 1 < d ∨ n < 1)%Z) as [Hbad|Hok].
  - destruct (maybe_regular_expander_invalid fuel n d max_tries seed Hbad) as [msg Hmsg].
    congruence.
  - lia.
Qed.

End Validation.

(** ** The acceptance threshold of [is_regular_expander] *)

Lemma spectral_bound_10 : spectral_bound 10 0 = Some 8%R.
Proof.
  unfold spectral_bound. destruct (decide _) as [|_]; [lia|].
  f_equal. replace (Z.of_nat 10 - 1)%Z with 9%Z by lia.
  replace (IZR 9) with (3 * 3)%R by lra.
  rewrite sqrt_square by lra.
  replace 3%R with (INR 3) by (simpl; lra).
  rewrite Rpower_pow by lra. simpl. lra.
Qed.

Lemma spectral_bound_2 : spectral_bound 2 0 = Some 2%R.
Proof.
  unfold spectral_bound. destruct (decide _) as [|_]; [lia|].
  f_equal. replace (Z.of_nat 2 - 1)%Z with 1%Z by lia.
  rewrite sqrt_1, Rpower_1 by lra. lra.
Qed.

Lemma rook_9_3_regular :
  is_regular rook_9_3 = Return true ∧ degree rook_9_3 (hd 0 (nodes rook_9_3)) = 10.
Proof. split; vm_compute; reflexivity. Qed.

(** 7 is an eigenvalue of the adjacency matrix of the rook's graph. *)
Lemma rook_9_3_eigenvalue_7 :
  Forall (λ u, adjacency_times rook_9_3 rook_9_3_vector u = (7 * rook_9_3_vector u)%Z)
         (nodes rook_9_3)
  ∧ rook_9_3_vector 0 ≠ 0%Z.
Proof.
  split; [|done].
  apply Forall_forall. intros u Hu.
  assert (Hall : forallb (λ u, bool_decide
            (adjacency_times rook_9_3 rook_9_3_vector u = (7 * rook_9_3_vector u)%Z))
            (nodes rook_9_3) = true) by (vm_compute; reflexivity).
  rewrite forallb_forall in Hall.
  apply list_elem_of_In, Hall in Hu. by apply bool_decide_eq_true in Hu.
Qed.

(** C1 (the code departs from it).  On the 10-regular rook's graph, whose
    second eigenvalue is 7, [is_regular_expander] with [epsilon = 0]
    answers [True]: the bound it compares with is [2 ** sqrt(9) = 8], while
    the bound of the claim, [2 * sqrt(10 - 1) + 0 = 6], is not above 7. *)
Theorem is_regular_expander_power_bound :
  is_regular_expander (eigsh_const (10, 7)%R) rook_9_3 0 = Return true
  ∧ spectral_bound 10 0 = Some 8%R
  ∧ ¬ (Rabs 7 < 2 * sqrt (10 - 1) + 0)%R.
Proof.
  split; [|split].
  - unfold is_regular_expander.
    destruct (decide (0 < 0)%R) as [?|_]; [lra|].
    destruct rook_9_3_regular as [-> ->].
    unfold eigsh_const. cbn [fst snd]. f_equal.
    rewrite spectral_bound_10. unfold below_bound.
    apply bool_decide_eq_true.
    rewrite Rmin_right by lra. rewrite Rabs_right by lra. lra.
  - exact spectral_bound_10.
  - replace (10 - 1)%R with (3 * 3)%R by lra.
    rewrite sqrt_square by lra. rewrite Rabs_right by lra. lra.
Qed.

(** ** Rejected arguments *)

(** C5.  When [d] is odd, [d < 2], [n - 1 < d] or [n < 1], the generator
    raises a [NetworkXError] at once: whatever the fuel, and with the
    random generator left in the state it was passed in, so that no
    permutation has been drawn and no cycle built. *)
Theorem invalid_arguments_rejected {RS : Type} `{!RandomState RS}
    (eigsh_LM2 : Graph → outcome (R * R)) (fuel : nat) (n d max_tries : Z)
    (epsilon : R) (seed : RS) :
  (d `mod` 2 ≠ 0 ∨ d < 2 ∨ n - 1 < d ∨ n < 1)%Z →
  ∃ msg,
    maybe_regular_expander fuel n d max_tries seed = (Raise (NetworkXError msg), seed)
    ∧ random_regular_expander_graph eigsh_LM2 fuel n d epsilon max_tries seed
      = (Raise (NetworkXError msg), seed).
Proof.
  intros Hbad.
  destruct (maybe_regular_expander_invalid fuel n d max_tries seed Hbad) as [msg Hmsg].
  exists msg. split; [done|].
  unfold random_regular_expander_graph. by apply bind_raise.
Qed.

Lemma invalid_arguments_rejected_witness :
  ∃ msg,
    maybe_regular_expander 0 6 3 100 [1; 2; 3] = (Raise (NetworkXError msg), [1; 2; 3])
    ∧ random_regular_expander_graph (eigsh_const (0, 0)%R) 0 6 3 0%R 100 [1; 2; 3]
      = (Raise (NetworkXError msg), [1; 2; 3]).
Proof.
  apply (invalid_arguments_rejected (eigsh_const (0, 0)%R) 0 6 3 100 0%R [1; 2; 3]).
  left. discriminate.
Defined.

(** C6 (as stated it fails).  With [n = 1] and the smallest admissible
    degree the generator raises; it does not return the graph on one
    node. *)
Lemma one_node_rejected :
  maybe_regular_expander 10 1 2 100 [1; 2; 3]
  = (Raise (NetworkXError
              "Need n-1>= d to have room for 1 independent cycles with 1 nodes"),
     [1; 2; 3])
  ∧ maybe_regular_expander 10 1 2 100 [1; 2; 3] ≠ (Return (empty_graph 1), [1; 2; 3]).
Proof. split; [vm_compute; reflexivity | discriminate]. Qed.

(** C6 (amended).  With [n = 1] every degree is rejected with a
    [NetworkXError] and without drawing; and a call that returns a graph
    had [n >= 3], so the shortcut for [n < 2] is never taken. *)
Theorem one_node_always_rejected {RS : Type} `{!RandomState RS}
    (fuel : nat) (d max_tries : Z) (seed : RS) :
  (∃ msg, maybe_regular_expander fuel 1 d max_tries seed
          = (Raise (NetworkXError msg), seed))
  ∧ ∀ n G seed',
      maybe_regular_expander fuel n d max_tries seed = (Return G, seed') → (3 ≤ n)%Z.
Proof.
  split.
  - apply maybe_regular_expander_invalid. lia.
  - intros n G seed' Hret.
    apply maybe_regular_expander_returns_valid in Hret. lia.
Qed.

(** ** Construction of [ExpanderGraphLifting] *)

(** C9.  With an odd [node_degree] the constructor never returns an
    object, and once the base class initialiser has returned it raises the
    [AssertionError] of the parity check.  The constructor takes neither a
    graph nor a generator: nothing has been generated at that point. *)
Theorem odd_node_degree_rejected {Base : Type}
    (super_init : gmap string pyval → outcome Base)
    (node_degree : Z) (kwargs : gmap string pyval) :
  (node_degree `mod` 2 ≠ 0)%Z →
  (∀ self, ExpanderGraphLifting.__init__ super_init node_degree kwargs ≠ Return self)
  ∧ (∀ b, super_init kwargs = Return b →
          ExpanderGraphLifting.__init__ super_init node_degree kwargs
          = Raise (AssertionError "Only even node degree are supported.")).
Proof.
  intros Hodd. unfold ExpanderGraphLifting.__init__.
  split.
  - intros self. destruct (super_init kwargs); try discriminate.
    by case_bool_decide.
  - intros b ->. by case_bool_decide.
Qed.

Lemma odd_node_degree_rejected_witness :
  ExpanderGraphLifting.__init__ (λ _, Return tt) 3 ∅
  = Raise (AssertionError "Only even node degree are supported.").
Proof.
  refine (proj2 (odd_node_degree_rejected (λ _, Return tt) 3 ∅ _) tt eq_refl).
  discriminate.
Defined.

(** ** The transform registry *)

Lemma TRANSFORMS_values (name : string) (cls : transform_class) :
  TRANSFORMS !! name = Some cls → cls ≠ ExpanderGraphLifting_class.
Proof.
  intros Hlook%elem_of_list_to_map_2.
  repeat (apply elem_of_cons in Hlook as [Heq|Hlook]; [by inversion Heq|]).
  by apply elem_of_nil in Hlook.
Qed.

(** C10.  The registry has no entry named ["ExpanderGraphLifting"] and no
    entry whose value is the expander lifting; constructing a
    [DataTransform] with a name that the registry lacks raises [KeyError]
    with that name, before any class is called. *)
Theorem unregistered_transform_KeyError {Transform : Type}
    (construct : transform_class → gmap string pyval → outcome Transform)
    (name : string) (kwargs : gmap string pyval) :
  TRANSFORMS !! name = None →
  DataTransform.__init__ construct (Some name) kwargs = Raise (KeyError name)
  ∧ TRANSFORMS !! "ExpanderGraphLifting" = None
  ∧ DataTransform.__init__ construct (Some "ExpanderGraphLifting") kwargs
    = Raise (KeyError "ExpanderGraphLifting")
  ∧ ∀ name' cls, TRANSFORMS !! name' = Some cls → cls ≠ ExpanderGraphLifting_class.
Proof.
  intros Habsent.
  assert (Hexp : TRANSFORMS !! "ExpanderGraphLifting" = None) by (vm_compute; reflexivity).
  unfold DataTransform.__init__. rewrite Habsent, Hexp.
  split; [done|]. split; [done|]. split; [done|].
  exact TRANSFORMS_values.
Qed.

Lemma unregistered_transform_KeyError_witness :
  DataTransform.__init__ (λ _ _, Return tt) (Some "KHop") ∅ = Raise (KeyError "KHop").
Proof.
  refine (proj1 (unregistered_transform_KeyError (λ _ _, Return tt) "KHop" ∅ _)).
  vm_compute. reflexivity.
Defined.

(** ** Lists and finite sets *)

Lemma size_list_to_set_le `{Countable A} (l : list A) :
  size (list_to_set l : gset A) ≤ length l.
Proof.
  induction l as [|a l IH]; [done|].
  rewrite list_to_set_cons, size_union_alt, size_singleton. simpl.
  assert (Hsub : (list_to_set l ∖ {[a]} : gset A) ⊆ list_to_set l) by set_solver.
  apply subseteq_size in Hsub. lia.
Qed.

Lemma filter_length_eq {A} (P : A → Prop) `{!∀ a, Decision (P a)} (l : list A) :
  length (filter P l) = length l → filter P l = l.
Proof.
  induction l as [|a l IH]; [done|].
  rewrite filter_cons. destruct (decide (P a)); simpl; intros Hlen.
  - f_equal. apply IH. lia.
  - pose proof (length_filter P l). lia.
Qed.

Lemma size_set_map_inj_on `{Countable A, Countable B} (f : A → B) (X : gset A) :
  (∀ a b, a ∈ X → b ∈ X → f a = f b → a = b) →
  size (set_map f X : gset B) = size X.
Proof.
  induction X as [|a X Ha IH] using set_ind_L; intros Hinj.
  - by rewrite set_map_empty, !size_empty.
  - rewrite set_map_union_L, set_map_singleton_L.
    rewrite !size_union, !size_singleton, IH; [done| | |].
    + intros b c Hb Hc. apply Hinj; set_solver.
    + set_solver.
    + intros y Hy1 [b [-> Hb]]%elem_of_map.
      apply elem_of_singleton in Hy1.
      assert (a = b) by (apply Hinj; set_solver). set_solver.
Qed.

Lemma size_filter_list_to_set `{Countable A} (P : A → Prop) `{!∀ a, Decision (P a)}
    (l : list A) :
  NoDup l → size (filter P (list_to_set l : gset A)) = length (filter P l).
Proof.
  intros Hnd.
  rewrite <-(size_list_to_set (C:=gset A) (filter P l)) by by apply NoDup_filter.
  f_equal. apply set_eq. intros a.
  rewrite elem_of_filter, !elem_of_list_to_set, list_elem_of_filter. done.
Qed.

Lemma filter_none {A} (P : A → Prop) `{!∀ a, Decision (P a)} (l : list A) :
  (∀ a, a ∈ l → ¬ P a) → filter P l = [].
Proof.
  induction l as [|a l IH]; [done|]. intros Hl.
  rewrite filter_cons_False by (apply Hl; left).
  apply IH. intros b Hb. apply Hl. by right.
Qed.

Lemma length_filter_fmap_eq {A} (f : A → nat) (w : nat) (l : list A) :
  NoDup (f <$> l) → w ∈ f <$> l → length (filter (λ a, f a = w) l) = 1.
Proof.
  induction l as [|a l IH]; simpl; [by intros _ ?%elem_of_nil|].
  intros [Ha Hnd]%NoDup_cons [Hw|Hw]%elem_of_cons.
  - subst w. rewrite filter_cons_True by done. simpl. f_equal.
    rewrite filter_none; [done|].
    intros b Hb Hfb. apply Ha. apply list_elem_of_fmap. eauto.
  - rewrite filter_cons_False; [by apply IH|].
    intros Heq. by subst w.
Qed.

(** ** Cyclic pairs of a list *)

Lemma pairwise_cyclic_fst (l : list nat) : (pairwise_cyclic l).*1 = l.
Proof.
  destruct l as [|a b]; [done|]. unfold pairwise_cyclic.
  apply fst_zip. rewrite length_app. simpl. lia.
Qed.

Lemma pairwise_cyclic_snd (l : list nat) : (pairwise_cyclic l).*2 ≡ₚ l.
Proof.
  destruct l as [|a b]; [done|]. unfold pairwise_cyclic.
  rewrite snd_zip by (rewrite length_app; simpl; lia).
  symmetry. apply Permutation_cons_append.
Qed.

Lemma length_pairwise_cyclic (l : list nat) : length (pairwise_cyclic l) = length l.
Proof. by rewrite <-(pairwise_cyclic_fst l) at 2; rewrite length_fmap. Qed.

Lemma pairwise_cyclic_lookup (l : list nat) (i u v : nat) :
  pairwise_cyclic l !! i = Some (u, v) →
  l !! i = Some u ∧ l !! next_index (length l) i = Some v.
Proof.
  destruct l as [|a b]; [done|]. unfold pairwise_cyclic, next_index.
  intros (x & y & [= -> ->] & Hx & Hy)%lookup_zip_with_Some.
  split; [done|]. simpl length.
  destruct (decide (S i = S (length b))) as [Hi|Hi].
  - rewrite lookup_app_r in Hy by lia.
    replace (i - length b) with 0 in Hy by lia. done.
  - apply lookup_lt_Some in Hx. simpl in Hx.
    rewrite lookup_app_l in Hy by lia. done.
Qed.

Lemma pairwise_cyclic_NoDup (l : list nat) : NoDup l → NoDup (pairwise_cyclic l).
Proof.
  intros Hnd. apply (NoDup_fmap_1 fst). by rewrite pairwise_cyclic_fst.
Qed.

Lemma pairwise_cyclic_antisym (l : list nat) (u v : nat) :
  NoDup l → 3 ≤ length l →
  (u, v) ∈ pairwise_cyclic l → (v, u) ∉ pairwise_cyclic l.
Proof.
  intros Hnd Hlen [i Hi]%list_elem_of_lookup [j Hj]%list_elem_of_lookup.
  apply pairwise_cyclic_lookup in Hi as [Hiu Hiv].
  apply pairwise_cyclic_lookup in Hj as [Hjv Hju].
  pose proof (NoDup_lookup _ _ _ _ Hnd Hiu Hju) as H1.
  pose proof (NoDup_lookup _ _ _ _ Hnd Hiv Hjv) as H2.
  apply lookup_lt_Some in Hiu, Hjv.
  unfold next_index in *. repeat case_decide; lia.
Qed.

Lemma pairwise_cyclic_bounds (l : list nat) (u v : nat) :
  (u, v) ∈ pairwise_cyclic l → u ∈ l ∧ v ∈ l.
Proof.
  intros H. split.
  - rewrite <-(pairwise_cyclic_fst l). by apply (list_elem_of_fmap_2 fst) in H.
  - rewrite <-(pairwise_cyclic_snd l). by apply (list_elem_of_fmap_2 snd) in H.
Qed.

(** ** The invariant of the edge set *)

Lemma edge_inv_empty (n : nat) : edge_inv n 0 ∅.
Proof.
  split; [by rewrite size_empty|]. split.
  - intros u v Huv. exfalso. by eapply (not_elem_of_empty (C:=gset (nat * nat))).
  - intros w _. split; apply size_empty_iff; set_solver.
Qed.

Lemma edge_inv_size (n k k' : nat) (E : gset (nat * nat)) :
  0 < n → edge_inv n k E → edge_inv n k' E → k = k'.
Proof. intros Hn (H1 & _) (H2 & _). nia. Qed.

Lemma cycle_perm (n : nat) (p : list nat) :
  1 ≤ n → p ≡ₚ seq 0 (n - 1) → p ++ [n - 1] ≡ₚ seq 0 n.
Proof.
  intros Hn Hp. replace n with (S (n - 1)) at 2 by lia.
  rewrite seq_S. simpl. by rewrite Hp.
Qed.

Lemma new_edges_accepted (n : nat) (E : gset (nat * nat)) (c : list nat) :
  length c = n → size (new_edges_of E c) = n →
  new_edges_of E c = list_to_set (pairwise_cyclic c)
  ∧ ∀ e, e ∈ pairwise_cyclic c → (e ∉ E) ∧ ((e.2, e.1) ∉ E).
Proof.
  unfold new_edges_of. intros Hlen Hsize.
  set (ok := λ e : nat * nat, (e ∉ E) ∧ ((e.2, e.1) ∉ E)) in *.
  assert (Hfilter : filter ok (pairwise_cyclic c) = pairwise_cyclic c).
  { apply filter_length_eq.
    pose proof (size_list_to_set_le (filter ok (pairwise_cyclic c))).
    pose proof (length_filter ok (pairwise_cyclic c)).
    rewrite length_pairwise_cyclic in *. lia. }
  rewrite Hfilter. split; [done|].
  intros e He. rewrite <-Hfilter in He. by apply list_elem_of_filter in He as [? _].
Qed.

Lemma edge_inv_step (n k : nat) (E : gset (nat * nat)) (c : list nat) :
  3 ≤ n → c ≡ₚ seq 0 n → edge_inv n k E →
  (∀ e, e ∈ pairwise_cyclic c → (e ∉ E) ∧ ((e.2, e.1) ∉ E)) →
  edge_inv n (S k) (E ∪ list_to_set (pairwise_cyclic c)).
Proof.
  intros Hn Hc (Hsize & Hpairs & Hdeg) Hnew.
  assert (Hnd : NoDup c) by (rewrite Hc; apply NoDup_seq).
  assert (Hlen : length c = n) by (by rewrite Hc, length_seq).
  assert (Hin : ∀ w, w ∈ c ↔ w < n).
  { intros w. rewrite Hc, elem_of_seq. lia. }
  assert (Hdisj : E ## (list_to_set (pairwise_cyclic c) : gset (nat * nat))).
  { intros e He1 He2%elem_of_list_to_set. by apply Hnew in He2 as [? _]. }
  split; [|split].
  - rewrite size_union by done.
    rewrite size_list_to_set by by apply pairwise_cyclic_NoDup.
    rewrite length_pairwise_cyclic. lia.
  - intros u v [Huv|Huv%elem_of_list_to_set]%elem_of_union.
    + destruct (Hpairs u v Huv) as (? & ? & Hrev). split; [done|]. split; [done|].
      intros [?|Hvu%elem_of_list_to_set]%elem_of_union; [done|].
      apply Hnew in Hvu as [_ Hvu]. done.
    + pose proof (pairwise_cyclic_bounds _ _ _ Huv) as [Hu Hv].
      split; [by apply Hin|]. split; [by apply Hin|].
      intros [Hvu|Hvu%elem_of_list_to_set]%elem_of_union.
      * apply Hnew in Huv as [_ Huv]. done.
      * by eapply pairwise_cyclic_antisym; [| |exact Huv|]; [done|lia|].
  - intros w Hw. destruct (Hdeg w Hw) as [Hout Hin'].
    rewrite !filter_union.
    rewrite !size_union by by apply disjoint_filter.
    rewrite !size_filter_list_to_set by by apply pairwise_cyclic_NoDup.
    rewrite (length_filter_fmap_eq fst), (length_filter_fmap_eq snd), Hout, Hin'.
    + lia.
    + rewrite pairwise_cyclic_snd. done.
    + rewrite pairwise_cyclic_snd. by apply Hin.
    + by rewrite pairwise_cyclic_fst.
    + rewrite pairwise_cyclic_fst. by apply Hin.
Qed.

(** ** The loops of [maybe_regular_expander] *)

Section Loops.
Context {RS : Type} `{!RandomState RS}.

Lemma while_independent_inv (fuel n i : nat) (iterations : Z)
    (cycles cycles' : list (list nat)) (E E' : gset (nat * nat)) (seed seed' : RS) :
  3 ≤ n →
  edge_inv n i E ∨ edge_inv n (S i) E →
  while_independent fuel n i iterations cycles E seed = (Return (cycles', E'), seed') →
  edge_inv n (S i) E'.
Proof.
  intros Hn. revert iterations cycles E seed.
  induction fuel as [|fuel IH]; intros iterations cycles E seed Hinv; simpl.
  - destruct (decide (size E ≠ (i + 1) * n)) as [Hne|Heq]; [discriminate|].
    intros [= <- <- <-]. destruct Hinv as [Hinv|Hinv]; [|done].
    destruct Hinv as (Hsize & _). lia.
  - destruct (decide (size E ≠ (i + 1) * n)) as [Hne|Heq].
    + assert (Hi : edge_inv n i E).
      { destruct Hinv as [Hinv|Hinv]; [done|]. destruct Hinv as (Hsize & _). lia. }
      pose proof (permutation_perm (n - 1) seed) as Hperm.
      destruct (permutation (n - 1) seed) as [p seed1]. simpl in Hperm.
      apply (cycle_perm n) in Hperm; [|lia].
      destruct (decide (size (new_edges_of E (p ++ [n - 1])) = n)) as [Hacc|Hrej].
      * destruct (decide (iterations - 1 = 0)%Z); [discriminate|].
        apply IH. right.
        apply new_edges_accepted in Hacc as [-> Hnew];
          [|by rewrite Hperm, length_seq].
        by apply edge_inv_step.
      * destruct (decide (iterations - 1 = 0)%Z); [discriminate|].
        apply IH. by left.
    + intros [= <- <- <-]. destruct Hinv as [Hinv|Hinv]; [|done].
      destruct Hinv as (Hsize & _). lia.
Qed.

Lemma for_cycles_inv (fuel n : nat) (max_tries : Z) (m a : nat)
    (cycles cycles' : list (list nat)) (E E' : gset (nat * nat)) (seed seed' : RS) :
  3 ≤ n → edge_inv n a E →
  for_cycles fuel n max_tries (seq a m) cycles E seed = (Return (cycles', E'), seed') →
  edge_inv n (a + m) E'.
Proof.
  intros Hn. revert a cycles E seed.
  induction m as [|m IH]; intros a cycles E seed Hinv; simpl.
  - unfold ret. intros [= <- <- <-]. by rewrite Nat.add_0_r.
  - unfold bind.
    destruct (while_independent fuel n a max_tries cycles E seed)
      as [[[cycles1 E1]| |] seed1] eqn:Hwhile; try discriminate.
    intros Hfor. simpl in Hfor.
    apply IH in Hfor; [by rewrite Nat.add_succ_r|].
    eapply while_independent_inv; eauto.
Qed.

Lemma maybe_regular_expander_edges (fuel : nat) (n d max_tries : Z)
    (seed seed' : RS) (G : Graph) :
  maybe_regular_expander fuel n d max_tries seed = (Return G, seed') →
  ∃ E, edge_inv (Z.to_nat n) (Z.to_nat (d `div` 2)) E
       ∧ G = add_edges_from (elements E) (empty_graph (Z.to_nat n)).
Proof.
  intros Hret.
  pose proof (maybe_regular_expander_returns_valid _ _ _ _ _ _ _ Hret) as Hvalid.
  rewrite maybe_regular_expander_valid in Hret by done.
  unfold bind in Hret.
  destruct (for_cycles _ _ _ _ _ _ _) as [[[cycles E]| |] seed1] eqn:Hfor;
    try discriminate.
  injection Hret as <- <-. exists E. split; [|done].
  apply for_cycles_inv in Hfor; [done|lia|apply edge_inv_empty].
Qed.

End Loops.

(** ** Graphs built by [empty_graph] and [add_edges_from] *)

Lemma empty_graph_spec (n : nat) :
  nodes (empty_graph n) = seq 0 n ∧ ∀ w, neighbors (empty_graph n) w = ∅.
Proof.
  unfold empty_graph, add_nodes_from.
  induction n as [|n [IHnodes IHadj]].
  - split; [done|]. intros w. unfold neighbors. simpl. by rewrite lookup_total_empty.
  - rewrite seq_S, foldl_app.
    set (G0 := foldl _ Graph_new (seq 0 n)) in *.
    cbn [foldl]. unfold add_node.
    rewrite IHnodes. rewrite decide_False by (rewrite elem_of_seq; lia).
    split; [done|]. intros w. unfold neighbors in *. simpl.
    destruct (decide (n = w)) as [->|Hne].
    + by rewrite lookup_total_insert_eq.
    + rewrite lookup_total_insert_ne by done. apply IHadj.
Qed.

Lemma add_edge_spec (e : nat * nat) (G : Graph) :
  e.1 ∈ nodes G → e.2 ∈ nodes G →
  nodes (add_edge e G) = nodes G
  ∧ ∀ w x, x ∈ neighbors (add_edge e G) w
           ↔ x ∈ neighbors G w ∨ (w = e.1 ∧ x = e.2) ∨ (w = e.2 ∧ x = e.1).
Proof.
  intros H1 H2. unfold add_edge, add_node.
  rewrite (decide_True _ _ H1). rewrite (decide_True _ _ H2).
  split; [done|]. intros w x. unfold neighbors. simpl.
  destruct (decide (e.2 = w)) as [<-|Hw2].
  - rewrite lookup_total_insert_eq.
    destruct (decide (e.1 = e.2)) as [Heq|Hne].
    + rewrite Heq, lookup_total_insert_eq. set_solver.
    + rewrite lookup_total_insert_ne by done. set_solver.
  - rewrite lookup_total_insert_ne by done.
    destruct (decide (e.1 = w)) as [<-|Hw1].
    + rewrite lookup_total_insert_eq. set_solver.
    + rewrite lookup_total_insert_ne by done. set_solver.
Qed.

Lemma add_edges_from_spec (es : list (nat * nat)) (G : Graph) :
  (∀ e, e ∈ es → e.1 ∈ nodes G ∧ e.2 ∈ nodes G) →
  nodes (add_edges_from es G) = nodes G
  ∧ ∀ w x, x ∈ neighbors (add_edges_from es G) w
           ↔ x ∈ neighbors G w ∨ (w, x) ∈ es ∨ (x, w) ∈ es.
Proof.
  unfold add_edges_from. revert G.
  induction es as [|e es IH]; intros G Hes; simpl.
  - split; [done|]. intros w x. rewrite !elem_of_nil. tauto.
  - destruct (Hes e) as [He1 He2]; [by left|].
    destruct (add_edge_spec e G He1 He2) as [Hnodes Hadj].
    destruct (IH (add_edge e G)) as [IHnodes IHadj].
    { intros e' He'. rewrite Hnodes. apply Hes. by right. }
    split; [by rewrite IHnodes|]. intros w x.
    rewrite IHadj, Hadj, !elem_of_cons. destruct e as [a b]. simpl.
    split; intros H; destruct_or?; destruct_and?; simplify_eq; eauto 6.
Qed.

Section GraphOf.
Variables (n k : nat) (E : gset (nat * nat)).
Hypothesis Hinv : edge_inv n k E.

Lemma graph_of_nodes : nodes (graph_of n E) = seq 0 n.
Proof.
  unfold graph_of. destruct (empty_graph_spec n) as [Hnodes _].
  destruct (add_edges_from_spec (elements E) (empty_graph n)) as [-> _]; [|done].
  intros [u v] Huv%elem_of_elements. rewrite Hnodes, !elem_of_seq. simpl.
  destruct Hinv as (_ & Hpairs & _). apply Hpairs in Huv. lia.
Qed.

Lemma graph_of_neighbors (w x : nat) :
  x ∈ neighbors (graph_of n E) w ↔ (w, x) ∈ E ∨ (x, w) ∈ E.
Proof.
  unfold graph_of. destruct (empty_graph_spec n) as [Hnodes Hadj].
  destruct (add_edges_from_spec (elements E) (empty_graph n)) as [_ Hspec].
  - intros [u v] Huv%elem_of_elements. rewrite Hnodes, !elem_of_seq. simpl.
    destruct Hinv as (_ & Hpairs & _). apply Hpairs in Huv. lia.
  - rewrite Hspec, Hadj, !elem_of_elements. set_solver.
Qed.

Lemma graph_of_no_self_loop (w : nat) : w ∉ neighbors (graph_of n E) w.
Proof.
  rewrite graph_of_neighbors. destruct Hinv as (_ & Hpairs & _).
  intros [Hww|Hww]; by destruct (Hpairs w w Hww) as (_ & _ & ?).
Qed.

Lemma graph_of_symmetric (w x : nat) :
  x ∈ neighbors (graph_of n E) w → w ∈ neighbors (graph_of n E) x.
Proof. rewrite !graph_of_neighbors. tauto. Qed.

Lemma graph_of_neighbors_size (w : nat) :
  w < n → size (neighbors (graph_of n E) w) = 2 * k.
Proof.
  intros Hw. destruct Hinv as (_ & Hpairs & Hdeg).
  destruct (Hdeg w Hw) as [Hout Hin].
  assert (Heq : neighbors (graph_of n E) w
                = set_map snd (filter (λ e, e.1 = w) E)
                  ∪ set_map fst (filter (λ e, e.2 = w) E)).
  { apply set_eq. intros x. rewrite graph_of_neighbors, elem_of_union, !elem_of_map.
    split.
    - intros [Hx|Hx]; [left; exists (w, x)|right; exists (x, w)];
        (split; [done|]); by apply elem_of_filter.
    - intros [([a b] & -> & [Ha Hab]%elem_of_filter)|([a b] & -> & [Hb Hab]%elem_of_filter)];
        simpl in *; subst; auto. }
  rewrite Heq, size_union.
  - rewrite !size_set_map_inj_on; [lia| |].
    + intros [a b] [a' b'] [Ha _]%elem_of_filter [Ha' _]%elem_of_filter.
      simpl in *. congruence.
    + intros [a b] [a' b'] [Ha _]%elem_of_filter [Ha' _]%elem_of_filter.
      simpl in *. congruence.
  - intros x ([a b] & -> & [Ha Hab]%elem_of_filter)%elem_of_map
             ([a' b'] & Hx & [Hb' Hab']%elem_of_filter)%elem_of_map.
    simpl in *. subst. by destruct (Hpairs _ _ Hab) as (_ & _ & ?).
Qed.

Lemma graph_of_degree (w : nat) : w < n → degree (graph_of n E) w = 2 * k.
Proof.
  intros Hw. unfold degree.
  rewrite decide_False by apply graph_of_no_self_loop.
  rewrite graph_of_neighbors_size by done. lia.
Qed.

End GraphOf.

(** ** The edge list *)

Lemma elem_of_edges_seen (G : Graph) (us : list nat) (seen : gset nat) (u v : nat) :
  (u, v) ∈ edges_seen G us seen
  ↔ ∃ i, us !! i = Some u ∧ v ∈ neighbors G u ∧ (v ∉ seen) ∧ (v ∉ take i us).
Proof.
  revert seen. induction us as [|u0 us IH]; intros seen; simpl.
  - rewrite elem_of_nil. split; [done|]. by intros (i & Hi & _).
  - rewrite elem_of_app, list_elem_of_fmap, IH. split.
    + intros [(x & [= -> ->] & [Hseen Hx%elem_of_elements]%list_elem_of_filter)
             |(i & Hi & Hv & Hseen & Htake)].
      * exists 0. simpl. rewrite elem_of_nil. tauto.
      * exists (S i). simpl. rewrite elem_of_cons. set_solver.
    + intros ([|i] & Hi & Hv & Hseen & Htake); simpl in *.
      * left. exists v. injection Hi as ->. split; [done|].
        apply list_elem_of_filter. by rewrite elem_of_elements.
      * right. exists i. rewrite elem_of_cons in Htake. set_solver.
Qed.

Lemma edges_seen_NoDup (G : Graph) (us : list nat) (seen : gset nat) :
  NoDup us → NoDup (edges_seen G us seen).
Proof.
  intros Hnd. revert seen.
  induction Hnd as [|u0 us Hu0 Hnd IH]; intros seen; simpl; [constructor|].
  apply NoDup_app. split; [|split].
  - apply NoDup_fmap_2; [by intros ?? [= ->]|].
    apply NoDup_filter, NoDup_elements.
  - intros [u v] (x & [= -> ->] & _)%list_elem_of_fmap
                 (i & Hi%list_elem_of_lookup_2 & _)%elem_of_edges_seen.
    done.
  - apply IH.
Qed.

Section GraphOfEdges.
Variables (n k : nat) (E : gset (nat * nat)).
Hypothesis Hinv : edge_inv n k E.

Lemma elem_of_edges_graph_of (u v : nat) :
  (u, v) ∈ edges (graph_of n E) ↔ u < v ∧ ((u, v) ∈ E ∨ (v, u) ∈ E).
Proof.
  unfold edges. rewrite elem_of_edges_seen, (graph_of_nodes n k E Hinv).
  destruct Hinv as (_ & Hpairs & _). split.
  - intros (i & [-> Hi]%lookup_seq & Hv%(graph_of_neighbors n k E Hinv) & _ & Htake).
    simpl in *. rewrite take_seq, elem_of_seq in Htake.
    split; [|done].
    assert (i ≠ v); [|lia].
    intros ->. destruct Hv as [Hv|Hv]; by destruct (Hpairs _ _ Hv) as (_ & _ & ?).
  - intros [Hlt Huv]. exists u.
    rewrite lookup_seq, (graph_of_neighbors n k E Hinv), take_seq, elem_of_seq.
    assert (u < n ∧ v < n) as [??].
    { destruct Huv as [Huv|Huv]; apply Hpairs in Huv; lia. }
    split; [split; [done|lia]|]. split; [done|]. split; [set_solver|lia].
Qed.

Lemma edges_graph_of_NoDup : NoDup (edges (graph_of n E)).
Proof.
  apply edges_seen_NoDup. rewrite (graph_of_nodes n k E Hinv). apply NoDup_seq.
Qed.

Lemma length_edges_graph_of : length (edges (graph_of n E)) = k * n.
Proof.
  destruct Hinv as (Hsize & Hpairs & _).
  rewrite <-Hsize.
  rewrite <-(size_set_map_inj_on sorted_pair E).
  - unfold size, set_size. simpl. apply Permutation_length.
    apply NoDup_Permutation; [apply edges_graph_of_NoDup|apply NoDup_elements|].
    intros [u v]. rewrite elem_of_edges_graph_of, elem_of_elements, elem_of_map.
    unfold sorted_pair. split.
    + intros [Hlt [Huv|Hvu]].
      * exists (u, v). split; [simpl; f_equal; lia|done].
      * exists (v, u). split; [simpl; f_equal; lia|done].
    + intros ([a b] & [= -> ->] & Hab). simpl.
      destruct (Hpairs a b Hab) as (_ & _ & Hba).
      assert (a ≠ b) by (by intros ->).
      destruct (decide (a < b)).
      * rewrite Nat.min_l, Nat.max_r by lia. auto.
      * rewrite Nat.min_r, Nat.max_l by lia. split; [lia|auto].
  - intros [a b] [a' b'] Hab Hab'. unfold sorted_pair. simpl. intros [= Hmin Hmax].
    destruct (Hpairs a b Hab) as (_ & _ & Hba).
    destruct (decide (a = a')) as [->|Hne].
    + f_equal. lia.
    + assert (a = b' ∧ b = a') as [-> ->] by lia. done.
Qed.

End GraphOfEdges.

(** ** Generated graphs are regular and simple *)

Lemma graph_of_simple (n k : nat) (E : gset (nat * nat)) :
  edge_inv n k E → simple (graph_of n E).
Proof.
  intros Hinv. split; [|split].
  - apply (graph_of_no_self_loop n k E Hinv).
  - apply (edges_graph_of_NoDup n k E Hinv).
  - intros u v. rewrite !(elem_of_edges_graph_of n k E Hinv). lia.
Qed.

Section GeneratedGraphs.
Context {RS : Type} `{!RandomState RS}.
Variable eigsh_LM2 : Graph → outcome (R * R).

Lemma while_not_expander_generated (fuel0 fuel : nat) (n d : Z) (epsilon : R)
    (max_tries iterations : Z) (G0 G : Graph) (seed seed' : RS) :
  generated fuel0 n d max_tries G0 →
  while_not_expander eigsh_LM2 fuel0 fuel n d epsilon max_tries iterations G0 seed
  = (Return G, seed') →
  generated fuel0 n d max_tries G
  ∧ is_regular_expander eigsh_LM2 G epsilon = Return true.
Proof.
  revert iterations G0 seed.
  induction fuel as [|fuel IH]; intros iterations G0 seed Hgen; simpl.
  - destruct (is_regular_expander eigsh_LM2 G0 epsilon) as [[|]| |] eqn:Hcheck;
      try discriminate.
    by intros [= <- <-].
  - destruct (is_regular_expander eigsh_LM2 G0 epsilon) as [[|]| |] eqn:Hcheck;
      try discriminate.
    + by intros [= <- <-].
    + destruct (maybe_regular_expander fuel0 n d max_tries seed)
        as [[G1| |] seed1] eqn:Hgen1; try discriminate.
      destruct (decide (iterations - 1 = 0)%Z); [discriminate|].
      apply IH. by exists seed, seed1.
Qed.

Lemma random_regular_expander_graph_generated (fuel : nat) (n d : Z) (epsilon : R)
    (max_tries : Z) (G : Graph) (seed seed' : RS) :
  random_regular_expander_graph eigsh_LM2 fuel n d epsilon max_tries seed
  = (Return G, seed') →
  generated fuel n d max_tries G
  ∧ is_regular_expander eigsh_LM2 G epsilon = Return true.
Proof.
  unfold random_regular_expander_graph, bind.
  destruct (maybe_regular_expander fuel n d max_tries seed)
    as [[G0| |] seed0] eqn:Hgen0; try discriminate.
  apply while_not_expander_generated. by exists seed, seed0.
Qed.

Lemma generated_graph_of (fuel : nat) (n d max_tries : Z) (G : Graph) :
  generated fuel n d max_tries G →
  (d `mod` 2 = 0 ∧ 2 ≤ d ∧ d ≤ n - 1)%Z
  ∧ ∃ E, edge_inv (Z.to_nat n) (Z.to_nat (d `div` 2)) E ∧ G = graph_of (Z.to_nat n) E.
Proof.
  intros (seed & seed' & Hret). split.
  - by eapply maybe_regular_expander_returns_valid.
  - by eapply maybe_regular_expander_edges.
Qed.

(** C2.  A graph returned by [maybe_regular_expander] or by
    [random_regular_expander_graph] has the nodes [0 .. n-1], has no
    self-loop and no edge twice, and every node has degree exactly [d]. *)
Theorem generated_graph_regular_simple (fuel : nat) (n d max_tries : Z) (epsilon : R)
    (G : Graph) (seed seed' : RS) :
  maybe_regular_expander fuel n d max_tries seed = (Return G, seed')
  ∨ random_regular_expander_graph eigsh_LM2 fuel n d epsilon max_tries seed
    = (Return G, seed') →
  simple G
  ∧ nodes G = seq 0 (Z.to_nat n)
  ∧ ∀ u, u ∈ nodes G → Z.of_nat (degree G u) = d.
Proof.
  intros Hret.
  assert (Hgen : generated fuel n d max_tries G).
  { destruct Hret as [Hret|Hret]; [by exists seed, seed'|].
    by apply random_regular_expander_graph_generated in Hret as [? _]. }
  apply generated_graph_of in Hgen as [(Heven & Hd & Hn) (E & Hinv & ->)].
  split; [by eapply graph_of_simple|].
  rewrite (graph_of_nodes _ _ _ Hinv). split; [done|].
  intros u Hu%elem_of_seq.
  rewrite (graph_of_degree _ _ _ Hinv) by lia.
  pose proof (Z.div_mod d 2). lia.
Qed.

End GeneratedGraphs.

Lemma generated_graph_regular_simple_witness :
  ∃ G, (maybe_regular_expander 10 5 2 100 [0; 1]).1 = Return G
       ∧ simple G ∧ nodes G = seq 0 5 ∧ ∀ u, u ∈ nodes G → Z.of_nat (degree G u) = 2%Z.
Proof.
  eexists. split; [vm_compute; reflexivity|].
  eapply (generated_graph_regular_simple (eigsh_const (0, 0)%R) 10 5 2 100 0%R _ [0; 1]).
  left. vm_compute. reflexivity.
Defined.

(** ** The incidence matrix *)

Lemma node_index_seq (a m u : nat) :
  a ≤ u < a + m → node_index (seq a m) u = u - a.
Proof.
  revert a. induction m as [|m IH]; intros a Hu; simpl; [lia|].
  destruct (decide (a = u)) as [->|Hne]; [lia|].
  rewrite IH by lia. lia.
Qed.

Lemma incidence_fold (nodelist : list nat) (A0 : sparse_matrix) (es : list (nat * nat)) :
  let A := foldl (incidence_step nodelist) A0 (imap (λ ei e, (ei, e)) es) in
  shape A = shape A0
  ∧ ∀ r c,
      stored A !! (r, c)
      = match es !! c with
        | Some (u, v) =>
            if decide (u ≠ v ∧ (r = node_index nodelist u ∨ r = node_index nodelist v))
            then Some 1%Z else stored A0 !! (r, c)
        | None => stored A0 !! (r, c)
        end.
Proof.
  induction es as [|[u v] es [IHshape IHstored]] using rev_ind; simpl.
  - split; [done|]. by intros r c.
  - rewrite imap_app, foldl_app. simpl. rewrite Nat.add_0_r.
    set (A1 := foldl _ A0 (imap _ es)) in *.
    split.
    + destruct (decide (u = v)); [done|]. simpl. done.
    + intros r c. destruct (decide (c = length es)) as [->|Hc].
      * rewrite list_lookup_middle by done.
        specialize (IHstored r (length es)).
        rewrite lookup_ge_None_2 in IHstored by lia.
        destruct (decide (u = v)) as [->|Huv].
        { rewrite decide_False by tauto. done. }
        unfold set_entry. simpl.
        destruct (decide (r = node_index nodelist v)) as [->|Hrv].
        { rewrite lookup_insert_eq. by rewrite decide_True by tauto. }
        rewrite lookup_insert_ne by congruence.
        destruct (decide (r = node_index nodelist u)) as [->|Hru].
        { rewrite lookup_insert_eq. by rewrite decide_True by tauto. }
        rewrite lookup_insert_ne by congruence.
        rewrite decide_False by tauto. done.
      * assert (Hsame : stored (if decide (u = v) then A1
                           else set_entry (node_index nodelist v) (length es) 1
                                  (set_entry (node_index nodelist u) (length es) 1 A1))
                        !! (r, c) = stored A1 !! (r, c)).
        { destruct (decide (u = v)); [done|]. unfold set_entry. simpl.
          rewrite !lookup_insert_ne by congruence. done. }
        rewrite Hsame, IHstored.
        destruct (decide (c < length es)).
        { by rewrite lookup_app_l by done. }
        rewrite !lookup_ge_None_2; [done| |lia].
        rewrite length_app. simpl. lia.
Qed.

Lemma elem_of_coo_entries (A : sparse_matrix) (r c : nat) (v : Z) :
  (r, c, v) ∈ coo_entries A
  ↔ r < (shape A).1 ∧ c < (shape A).2 ∧ stored A !! (r, c) = Some v.
Proof.
  unfold coo_entries. rewrite list_elem_of_bind. split.
  - intros (c' & (r' & Hentry & Hr%elem_of_seq)%list_elem_of_bind & Hc%elem_of_seq).
    destruct (stored A !! (r', c')) as [v'|] eqn:Hlook.
    + apply list_elem_of_singleton in Hentry as [= -> -> ->]. split; [lia|]. split; [lia|done].
    + by apply elem_of_nil in Hentry.
  - intros (Hr & Hc & Hlook). exists c. split; [|apply elem_of_seq; lia].
    apply list_elem_of_bind. exists r. split; [|apply elem_of_seq; lia].
    rewrite Hlook. by apply list_elem_of_singleton.
Qed.

Lemma zip_fmap_same {A B C} (f : A → B) (g : A → C) (l : list A) :
  zip (f <$> l) (g <$> l) = (λ a, (f a, g a)) <$> l.
Proof. induction l as [|a l IH]; simpl; [done|by f_equal]. Qed.

Lemma elem_of_column_nodes (A : sparse_matrix) (r c : nat) :
  r ∈ column_nodes (tensor_of A) c ↔ ∃ v, (r, c, v) ∈ coo_entries A.
Proof.
  unfold column_nodes, tensor_of, tocoo. simpl.
  rewrite elem_of_list_to_set, list_elem_of_fmap, zip_fmap_same. split.
  - intros ([r' c'] & -> & [Hc ([[r1 c1] v] & [= -> ->] & Hin)%list_elem_of_fmap]%list_elem_of_filter).
    simpl in *. subst. by exists v.
  - intros [v Hin]. exists (r, c). split; [done|].
    apply list_elem_of_filter. split; [done|].
    apply list_elem_of_fmap. by exists (r, c, v).
Qed.




Section GraphOfIncidence.
Variables (n k : nat) (E : gset (nat * nat)).
Hypothesis Hinv : edge_inv n k E.

Lemma edges_graph_of_lookup (c u v : nat) :
  edges (graph_of n E) !! c = Some (u, v) → u < v ∧ v < n.
Proof.
  intros Hc%list_elem_of_lookup_2.
  apply (elem_of_edges_graph_of n k E Hinv) in Hc as [Hlt Huv].
  destruct Hinv as (_ & Hpairs & _).
  destruct Huv as [Huv|Huv]; apply Hpairs in Huv; lia.
Qed.

Lemma incidence_graph_of_shape :
  shape (incidence_matrix (graph_of n E)) = (n, k * n).
Proof.
  unfold incidence_matrix.
  destruct (incidence_fold (nodes (graph_of n E))
              (mkSparse (length (nodes (graph_of n E)),
                         length (edges (graph_of n E))) ∅)
              (edges (graph_of n E))) as [-> _].
  simpl. rewrite (graph_of_nodes n k E Hinv), length_seq.
  by rewrite (length_edges_graph_of n k E Hinv).
Qed.

Lemma incidence_graph_of_stored (r c : nat) (x : Z) :
  stored (incidence_matrix (graph_of n E)) !! (r, c) = Some x
  ↔ x = 1%Z ∧ ∃ u v, edges (graph_of n E) !! c = Some (u, v) ∧ (r = u ∨ r = v).
Proof.
  unfold incidence_matrix.
  destruct (incidence_fold (nodes (graph_of n E))
              (mkSparse (length (nodes (graph_of n E)),
                         length (edges (graph_of n E))) ∅)
              (edges (graph_of n E))) as [_ ->].
  simpl. rewrite (graph_of_nodes n k E Hinv).
  destruct (edges (graph_of n E) !! c) as [[u v]|] eqn:Hc.
  - destruct (edges_graph_of_lookup c u v Hc) as [Huv Hv].
    rewrite !node_index_seq by lia. rewrite !Nat.sub_0_r.
    destruct (decide (u ≠ v ∧ (r = u ∨ r = v))) as [[_ Hr]|Hr].
    + split; [intros [= <-]; eauto|]. by intros [-> _].
    + rewrite lookup_empty. split; [done|].
      intros (_ & u' & v' & [= <- <-] & Hr'). destruct Hr. split; [lia|done].
  - rewrite lookup_empty. split; [done|]. by intros (_ & u & v & ? & _).
Qed.

Lemma coo_entries_graph_of (r c : nat) (x : Z) :
  (r, c, x) ∈ coo_entries (incidence_matrix (graph_of n E))
  ↔ x = 1%Z ∧ ∃ u v, edges (graph_of n E) !! c = Some (u, v) ∧ (r = u ∨ r = v).
Proof.
  rewrite elem_of_coo_entries, incidence_graph_of_shape, incidence_graph_of_stored.
  simpl. split; [tauto|].
  intros (-> & u & v & Hc & Hr). split; [|split; [|eauto]].
  - apply edges_graph_of_lookup in Hc. lia.
  - apply lookup_lt_Some in Hc. by rewrite (length_edges_graph_of n k E Hinv) in Hc.
Qed.

Lemma column_nodes_graph_of (c u v : nat) :
  edges (graph_of n E) !! c = Some (u, v) →
  column_nodes (tensor_of (incidence_matrix (graph_of n E))) c = {[u; v]}.
Proof.
  intros Hc. apply set_eq. intros r.
  rewrite elem_of_column_nodes. setoid_rewrite coo_entries_graph_of.
  rewrite elem_of_union, !elem_of_singleton. split.
  - intros (x & _ & u' & v' & Hc' & Hr). congruence.
  - intros Hr. exists 1%Z. eauto.
Qed.

Lemma column_nodes_graph_of_size (c : nat) :
  c < k * n →
  size (column_nodes (tensor_of (incidence_matrix (graph_of n E))) c) = 2.
Proof.
  rewrite <-(length_edges_graph_of n k E Hinv). intros Hc.
  apply lookup_lt_is_Some_2 in Hc as [[u v] Hc].
  rewrite (column_nodes_graph_of c u v Hc).
  apply edges_graph_of_lookup in Hc.
  rewrite size_union, !size_singleton; [done|]. set_solver by lia.
Qed.



End GraphOfIncidence.

(** ** Acceptance by [is_regular_expander] *)

Section Spectral.
Context {RS : Type} `{!RandomState RS}.
Variable eigsh_LM2 : Graph → outcome (R * R).

Lemma is_regular_expander_negative_epsilon (G : Graph) (epsilon : R) :
  (epsilon < 0)%R →
  is_regular_expander eigsh_LM2 G epsilon
  = Raise (NetworkXError "epsilon must be non negative").
Proof. intros Heps. unfold is_regular_expander. by rewrite decide_True. Qed.

Lemma is_regular_expander_accepts (G : Graph) (epsilon b : R) (lams : R * R) :
  (0 <= epsilon)%R →
  is_regular G = Return true →
  eigsh_LM2 G = Return lams →
  spectral_bound (degree G (hd 0 (nodes G))) epsilon = Some b →
  (Rabs (Rmin lams.1 lams.2) < b)%R →
  is_regular_expander eigsh_LM2 G epsilon = Return true.
Proof.
  intros Heps Hreg Heig Hbound Hlt. unfold is_regular_expander.
  rewrite decide_False by lra. rewrite Hreg, Heig, Hbound. simpl.
  f_equal. by apply bool_decide_eq_true.
Qed.

(** With an integer seed the decorator starts a fresh generator and the
    global one is left alone. *)
Lemma np_random_state_seeded {A} (f : M RS A) (z : Z) (global : RS) :
  np_random_state f (SeedInt z) global = ((f (RandomState_init z)).1, global).
Proof. reflexivity. Qed.

Lemma np_random_state_unseeded {A} (f : M RS A) (global : RS) :
  np_random_state f SeedNone global = f global.
Proof. reflexivity. Qed.

Lemma while_not_expander_accepts (fuel0 fuel : nat) (n d : Z) (epsilon : R)
    (max_tries iterations : Z) (G : Graph) (seed : RS) :
  is_regular_expander eigsh_LM2 G epsilon = Return true →
  while_not_expander eigsh_LM2 fuel0 fuel n d epsilon max_tries iterations G seed
  = (Return G, seed).
Proof. intros Hacc. destruct fuel; simpl; by rewrite Hacc. Qed.

Lemma random_regular_expander_graph_first (fuel : nat) (n d : Z) (epsilon : R)
    (max_tries : Z) (G : Graph) (seed seed' : RS) :
  maybe_regular_expander fuel n d max_tries seed = (Return G, seed') →
  is_regular_expander eigsh_LM2 G epsilon = Return true →
  random_regular_expander_graph eigsh_LM2 fuel n d epsilon max_tries seed
  = (Return G, seed').
Proof.
  intros Hgen Hacc. unfold random_regular_expander_graph.
  rewrite (bind_return _ _ _ _ _ Hgen). by apply while_not_expander_accepts.
Qed.

Lemma random_regular_expander_graph_negative_epsilon (fuel : nat) (n d : Z)
    (epsilon : R) (max_tries : Z) (seed : RS) :
  (epsilon < 0)%R →
  random_regular_expander_graph eigsh_LM2 fuel n d epsilon max_tries seed
  = match maybe_regular_expander fuel n d max_tries seed with
    | (Return _, seed') =>
        (Raise (NetworkXError "epsilon must be non negative"), seed')
    | other => other
    end.
Proof.
  intros Heps. unfold random_regular_expander_graph, bind.
  destruct (maybe_regular_expander fuel n d max_tries seed) as [[G| |] seed'];
    [|done|done].
  destruct fuel; simpl; by rewrite is_regular_expander_negative_epsilon.
Qed.

(** C7 (amended).  With a negative [epsilon],
    [random_regular_expander_graph] first runs [maybe_regular_expander]; when
    that returns a graph, the [NetworkXError] for [epsilon] is raised in the
    generator state the construction left behind, and otherwise the outcome
    of the construction is the outcome of the call.  [is_regular_expander]
    itself raises before it looks at the graph. *)
Theorem negative_epsilon_after_generation (fuel : nat) (n d : Z) (epsilon : R)
    (max_tries : Z) (seed : RS) :
  (epsilon < 0)%R →
  (∀ G, is_regular_expander eigsh_LM2 G epsilon
        = Raise (NetworkXError "epsilon must be non negative"))
  ∧ random_regular_expander_graph eigsh_LM2 fuel n d epsilon max_tries seed
    = match maybe_regular_expander fuel n d max_tries seed with
      | (Return _, seed') =>
          (Raise (NetworkXError "epsilon must be non negative"), seed')
      | other => other
      end.
Proof.
  intros Heps. split.
  - intros G. by apply is_regular_expander_negative_epsilon.
  - by apply random_regular_expander_graph_negative_epsilon.
Qed.

End Spectral.

(** C7 (as stated it fails).  With [epsilon = -1] on three nodes the error
    for [epsilon] is raised only after a permutation has been drawn: two raw
    draws are gone from the generator. *)
Lemma negative_epsilon_raised_late :
  random_regular_expander_graph (eigsh_const (2, -1)%R) 10 3 2 (-1)%R 100 [1; 2; 3]
  = (Raise (NetworkXError "epsilon must be non negative"), [3])
  ∧ (permutation 2 [1; 2; 3]).2 = [3]
  ∧ [3] ≠ [1; 2; 3].
Proof.
  split; [|split; [vm_compute; reflexivity|discriminate]].
  rewrite random_regular_expander_graph_negative_epsilon by lra.
  assert (Hgen : ∃ G, maybe_regular_expander 10 3 2 100 [1; 2; 3] = (Return G, [3])).
  { eexists. vm_compute. reflexivity. }
  destruct Hgen as [G ->]. done.
Qed.

Lemma negative_epsilon_after_generation_witness :
  random_regular_expander_graph (eigsh_const (2, -1)%R) 10 4 2 (-1)%R 100 [0; 1; 2; 3]
  = match maybe_regular_expander 10 4 2 100 [0; 1; 2; 3] with
    | (Return _, seed') =>
        (Raise (NetworkXError "epsilon must be non negative"), seed')
    | other => other
    end.
Proof.
  refine (proj2 (negative_epsilon_after_generation (eigsh_const (2, -1)%R)
                   10 4 2 (-1)%R 100 [0; 1; 2; 3] _)).
  lra.
Defined.

(** ** The topology descriptor of [lift_topology] *)

Section Lifting.
Context {RS : Type} `{!RandomState RS}.
Variable eigsh_LM2 : Graph → outcome (R * R).
Context {Base X : Type}.
Implicit Types (self : ExpanderGraphLifting.t Base) (data : ExpanderGraphLifting.Data X).

Import ExpanderGraphLifting.

(** The call made by [lift_topology], and what it does with the graph. *)
Lemma lift_topology_unfold (fuel : nat) self data (global : RS) :
  lift_topology eigsh_LM2 fuel self data global
  = match random_regular_expander_graph eigsh_LM2 fuel (num_nodes data)
            (node_degree self) 0%R 100%Z global with
    | (Return G, global') =>
        (Return (mkTopology (tensor_of (incidence_matrix G))
                   (tensor_size (tensor_of (incidence_matrix G))).2 (x data)),
         global')
    | (Raise e, global') => (Raise e, global')
    | (OutOfFuel, global') => (OutOfFuel, global')
    end.
Proof. reflexivity. Qed.



End Lifting.

(** ** Two runs on the pentagon *)

Lemma eigsh_pentagon_accepted (G : Graph) :
  is_regular G = Return true →
  degree G (hd 0 (nodes G)) = 2 →
  is_regular_expander eigsh_pentagon G 0 = Return true.
Proof.
  intros Hreg Hdeg.
  apply (is_regular_expander_accepts _ _ _ 2%R (2, -1618 / 1000)%R);
    [lra|done|done| |].
  - rewrite Hdeg. apply spectral_bound_2.
  - cbn [fst snd]. rewrite Rmin_right by lra. rewrite Rabs_left by lra. lra.
Qed.

Lemma lift_topology_pentagon (global global' : list nat) (c : list nat) :
  maybe_regular_expander 10 5 2 100 global = (Return (cycle_graph c), global') →
  is_regular (cycle_graph c) = Return true →
  degree (cycle_graph c) (hd 0 (nodes (cycle_graph c))) = 2 →
  ExpanderGraphLifting.lift_topology eigsh_pentagon 10 lifting_2 pentagon_data global
  = (Return (ExpanderGraphLifting.mkTopology
               (tensor_of (incidence_matrix (cycle_graph c)))
               (tensor_size (tensor_of (incidence_matrix (cycle_graph c)))).2
               [10; 20; 30; 40; 50]%Z),
     global').
Proof.
  intros Hgen Hreg Hdeg. rewrite lift_topology_unfold.
  change (ExpanderGraphLifting.num_nodes pentagon_data) with 5%Z.
  change (ExpanderGraphLifting.node_degree lifting_2) with 2%Z.
  rewrite (random_regular_expander_graph_first eigsh_pentagon _ _ _ _ _ _ _ _ Hgen);
    [done|].
  by apply eigsh_pentagon_accepted.
Qed.

Lemma lift_topology_pentagon_first :
  ExpanderGraphLifting.lift_topology eigsh_pentagon 10 lifting_2 pentagon_data
    [0; 0; 0; 0; 0; 1; 0; 0]
  = (Return (pentagon_topology [0; 4; 0; 1; 1; 2; 2; 3; 3; 4]
                               [0; 0; 1; 1; 2; 2; 3; 3; 4; 4]),
     [0; 1; 0; 0]).
Proof.
  rewrite (lift_topology_pentagon _ [0; 1; 0; 0] [3; 2; 1; 0; 4]);
    vm_compute; reflexivity.
Qed.


(** ** The iteration caps *)

Lemma filter_all {A} (P : A → Prop) `{!∀ a, Decision (P a)} (l : list A) :
  (∀ a, a ∈ l → P a) → filter P l = l.
Proof.
  induction l as [|a l IH]; [done|]. intros Hl.
  rewrite filter_cons_True by (apply Hl; left).
  f_equal. apply IH. intros b Hb. apply Hl. by right.
Qed.

Section Caps.
Context {RS : Type} `{!RandomState RS}.

Lemma new_edges_of_empty (n : nat) (c : list nat) :
  c ≡ₚ seq 0 n → size (new_edges_of ∅ c) = n.
Proof.
  intros Hc. unfold new_edges_of.
  rewrite filter_all by (intros e _; split; apply not_elem_of_empty).
  rewrite size_list_to_set.
  - by rewrite length_pairwise_cyclic, Hc, length_seq.
  - apply pairwise_cyclic_NoDup. rewrite Hc. apply NoDup_seq.
Qed.

(** C4 (the code departs from it).  With [max_tries = 1] and valid [n] and
    [d], the first cycle drawn is independent (all its [n] edges are new),
    and [maybe_regular_expander] raises "Too many iterations" all the same:
    the countdown is tested after the cycle has been accepted. *)
Theorem found_on_last_try_raises (fuel : nat) (n d : Z) (seed : RS) :
  (d `mod` 2 = 0 ∧ 2 ≤ d ∧ d ≤ n - 1)%Z →
  size (new_edges_of ∅ ((permutation (Z.to_nat n - 1) seed).1 ++ [Z.to_nat n - 1]))
  = Z.to_nat n
  ∧ maybe_regular_expander (S fuel) n d 1 seed
    = (Raise (NetworkXError "Too many iterations in maybe_regular_expander"),
       (permutation (Z.to_nat n - 1) seed).2).
Proof.
  intros (Heven & Hd & Hn).
  assert (Hd2 : d = (2 * (d `div` 2))%Z) by (pose proof (Z.div_mod d 2); lia).
  split.
  - apply new_edges_of_empty, cycle_perm; [lia|apply permutation_perm].
  - rewrite maybe_regular_expander_valid by done.
    destruct (Z.to_nat (d `div` 2)) as [|k] eqn:Hk; [lia|].
    apply bind_raise. cbn [seq for_cycles]. apply bind_raise.
    cbn [while_independent]. rewrite size_empty.
    rewrite decide_True by lia.
    destruct (permutation (Z.to_nat n - 1) seed) as [p seed1]. cbn [fst snd].
    by destruct (decide (size (new_edges_of ∅ (p ++ [Z.to_nat n - 1])) = Z.to_nat n)).
Qed.

End Caps.

Lemma found_on_last_try_raises_witness :
  size (new_edges_of ∅ ((permutation 2 [1; 2; 3]).1 ++ [2])) = 3
  ∧ maybe_regular_expander 1 3 2 1 [1; 2; 3]
    = (Raise (NetworkXError "Too many iterations in maybe_regular_expander"), [3]).
Proof.
  assert (Hvalid : (2 `mod` 2 = 0 ∧ 2 ≤ 2 ∧ 2 ≤ 3 - 1)%Z)
    by (split; [reflexivity|lia]).
  exact (found_on_last_try_raises 0 3 2 [1; 2; 3] Hvalid).
Defined.

(** ** Enough fuel

    With [max_tries >= 1] no loop runs more than [max_tries] times, so fuel
    [max_tries] is enough for every call to come to its end. *)

Section Fuel.
Context {RS : Type} `{!RandomState RS}.
Variable eigsh_LM2 : Graph → outcome (R * R).
Hypothesis eigsh_ends : ∀ G, eigsh_LM2 G ≠ OutOfFuel.

Lemma while_independent_ends (fuel n i : nat) (iterations : Z)
    (cycles : list (list nat)) (E : gset (nat * nat)) (seed : RS) :
  (0 < iterations)%Z → Z.to_nat iterations ≤ fuel →
  (while_independent fuel n i iterations cycles E seed).1 ≠ OutOfFuel.
Proof.
  revert iterations cycles E seed.
  induction fuel as [|fuel IH]; intros iterations cycles E seed Hpos Hfuel; [lia|].
  cbn [while_independent].
  destruct (decide (size E ≠ (i + 1) * n)); [|done].
  destruct (permutation (n - 1) seed) as [p seed1].
  destruct (decide (size (new_edges_of E (p ++ [n - 1])) = n));
    (destruct (decide (iterations - 1 = 0)%Z); [done|apply IH; lia]).
Qed.

Lemma for_cycles_ends (fuel n : nat) (max_tries : Z) (idxs : list nat)
    (cycles : list (list nat)) (E : gset (nat * nat)) (seed : RS) :
  (0 < max_tries)%Z → Z.to_nat max_tries ≤ fuel →
  (for_cycles fuel n max_tries idxs cycles E seed).1 ≠ OutOfFuel.
Proof.
  intros Hpos Hfuel. revert cycles E seed.
  induction idxs as [|i idxs IH]; intros cycles E seed; [done|].
  cbn [for_cycles]. unfold bind.
  pose proof (while_independent_ends fuel n i max_tries cycles E seed Hpos Hfuel).
  destruct (while_independent fuel n i max_tries cycles E seed) as [[[??]| |] ?];
    [apply IH|done|done].
Qed.

Lemma maybe_regular_expander_ends (fuel : nat) (n d max_tries : Z) (seed : RS) :
  (0 < max_tries)%Z → Z.to_nat max_tries ≤ fuel →
  (maybe_regular_expander fuel n d max_tries seed).1 ≠ OutOfFuel.
Proof.
  intros Hpos Hfuel. unfold maybe_regular_expander.
  destruct (decide (n < 1)%Z); [done|].
  do 3 (case_bool_decide; [|done]). cbn [negb].
  destruct (decide (n < 2)%Z); [done|]. unfold bind.
  pose proof (for_cycles_ends fuel (Z.to_nat n) max_tries
                (seq 0 (Z.to_nat (d `div` 2))) [] ∅ seed Hpos Hfuel).
  by destruct (for_cycles _ _ _ _ _ _ _) as [[[??]| |] ?].
Qed.

Lemma is_regular_expander_ends (G : Graph) (epsilon : R) :
  is_regular_expander eigsh_LM2 G epsilon ≠ OutOfFuel.
Proof.
  unfold is_regular_expander. destruct (decide _); [done|].
  unfold is_regular. destruct (nodes G); [done|].
  destruct (forallb _ _); [|done].
  pose proof (eigsh_ends G). by destruct (eigsh_LM2 G).
Qed.

Lemma while_not_expander_ends (fuel0 fuel : nat) (n d : Z) (epsilon : R)
    (max_tries iterations : Z) (G : Graph) (seed : RS) :
  (0 < max_tries)%Z → Z.to_nat max_tries ≤ fuel0 →
  (0 < iterations)%Z → Z.to_nat iterations ≤ fuel →
  (while_not_expander eigsh_LM2 fuel0 fuel n d epsilon max_tries iterations G seed).1
  ≠ OutOfFuel.
Proof.
  intros Hpos0 Hfuel0. revert iterations G seed.
  induction fuel as [|fuel IH]; intros iterations G seed Hpos Hfuel; [lia|].
  cbn [while_not_expander].
  pose proof (is_regular_expander_ends G epsilon).
  destruct (is_regular_expander eigsh_LM2 G epsilon) as [[|]| |]; [done| |done|done].
  pose proof (maybe_regular_expander_ends fuel0 n d max_tries seed Hpos0 Hfuel0).
  destruct (maybe_regular_expander fuel0 n d max_tries seed) as [[G1| |] seed1];
    [|done|done].
  destruct (decide (iterations - 1 = 0)%Z); [done|apply IH; lia].
Qed.

Lemma random_regular_expander_graph_ends (fuel : nat) (n d : Z) (epsilon : R)
    (max_tries : Z) (seed : RS) :
  (0 < max_tries)%Z → Z.to_nat max_tries ≤ fuel →
  (random_regular_expander_graph eigsh_LM2 fuel n d epsilon max_tries seed).1
  ≠ OutOfFuel.
Proof.
  intros Hpos Hfuel. unfold random_regular_expander_graph, bind.
  pose proof (maybe_regular_expander_ends fuel n d max_tries seed Hpos Hfuel).
  destruct (maybe_regular_expander fuel n d max_tries seed) as [[G| |] seed1];
    [|done|done].
  by apply while_not_expander_ends.
Qed.

Lemma lift_topology_ends {Base X : Type} (fuel : nat)
    (self : ExpanderGraphLifting.t Base) (data : ExpanderGraphLifting.Data X)
    (global : RS) :
  100 ≤ fuel →
  (ExpanderGraphLifting.lift_topology eigsh_LM2 fuel self data global).1 ≠ OutOfFuel.
Proof.
  intros Hfuel. rewrite lift_topology_unfold.
  pose proof (random_regular_expander_graph_ends fuel
                (ExpanderGraphLifting.num_nodes data)
                (ExpanderGraphLifting.node_degree self) 0%R 100%Z global) as Hends.
  destruct (random_regular_expander_graph _ _ _ _ _ _ _) as [[G| |] g1];
    [done|done|]. exfalso. apply Hends; [lia|lia|done].
Qed.

End Fuel.

(** ** What the countdowns do at their last pass, and without a cap *)

Section LastPass.
Context {RS : Type} `{!RandomState RS}.
Variable eigsh_LM2 : Graph → outcome (R * R).

(** The pass of the inner loop in which the countdown reaches [0] raises,
    whether or not the cycle drawn in it was accepted. *)
Lemma while_independent_last_pass (fuel n i : nat) (cycles : list (list nat))
    (E : gset (nat * nat)) (seed : RS) :
  size E ≠ (i + 1) * n →
  while_independent (S fuel) n i 1 cycles E seed
  = (Raise (NetworkXError "Too many iterations in maybe_regular_expander"),
     (permutation (n - 1) seed).2).
Proof.
  intros Hsize. cbn [while_independent]. rewrite decide_True by done.
  destruct (permutation (n - 1) seed) as [p seed1]. cbn [snd].
  by destruct (decide (size (new_edges_of E (p ++ [n - 1])) = n)).
Qed.

(** The same in the outer loop: the candidate built in the pass in which
    the countdown reaches [0] is not checked. *)
Lemma while_not_expander_last_pass (fuel0 fuel : nat) (n d : Z) (epsilon : R)
    (max_tries : Z) (G G1 : Graph) (seed seed1 : RS) :
  is_regular_expander eigsh_LM2 G epsilon = Return false →
  maybe_regular_expander fuel0 n d max_tries seed = (Return G1, seed1) →
  while_not_expander eigsh_LM2 fuel0 (S fuel) n d epsilon max_tries 1 G seed
  = (Raise (NetworkXError "Too many iterations in random_regular_expander_graph"),
     seed1).
Proof. intros Hrej Hgen. cbn [while_not_expander]. by rewrite Hrej, Hgen. Qed.

End LastPass.

(** Without a positive [max_tries] there is no cap: the countdown starts at
    [0], goes negative and never is [0] again.  With a generator that keeps
    drawing the same cycle, the loop for the second cycle then runs for as
    long as there is fuel. *)
Lemma while_independent_no_cap (fuel : nat) (iterations : Z) (cycles : list (list nat)) :
  (iterations ≤ 0)%Z →
  while_independent fuel 5 1 iterations cycles
    (∅ ∪ new_edges_of ∅ [3; 2; 1; 0; 4]) []
  = (OutOfFuel, []).
Proof.
  revert iterations cycles.
  assert (Hsize : size (∅ ∪ new_edges_of ∅ [3; 2; 1; 0; 4] : gset (nat * nat)) = 5)
    by (vm_compute; reflexivity).
  assert (Hnew : size (new_edges_of (∅ ∪ new_edges_of ∅ [3; 2; 1; 0; 4])
                         [3; 2; 1; 0; 4]) = 0)
    by (vm_compute; reflexivity).
  induction fuel as [|fuel IH]; intros iterations cycles Hneg;
    cbn [while_independent]; rewrite Hsize; (rewrite decide_True by lia); [done|].
  change (permutation (5 - 1) []) with ([3; 2; 1; 0], @nil nat).
  cbv beta iota zeta.
  change ([3; 2; 1; 0] ++ [5 - 1]) with [3; 2; 1; 0; 4].
  rewrite Hnew. rewrite (decide_False (P := 0 = 5)) by lia.
  rewrite decide_False by lia. apply IH. lia.
Qed.

Lemma while_independent_first_cycle (fuel : nat) :
  while_independent (S fuel) 5 0 0 [] ∅ []
  = (Return ([[3; 2; 1; 0; 4]], ∅ ∪ new_edges_of ∅ [3; 2; 1; 0; 4]), []).
Proof.
  assert (Hnew : size (new_edges_of ∅ [3; 2; 1; 0; 4]) = 5) by (vm_compute; reflexivity).
  assert (Hsize : size (∅ ∪ new_edges_of ∅ [3; 2; 1; 0; 4] : gset (nat * nat)) = 5)
    by (vm_compute; reflexivity).
  cbn [while_independent]. rewrite size_empty, decide_True by lia.
  change (permutation (5 - 1) []) with ([3; 2; 1; 0], @nil nat).
  cbv beta iota zeta.
  change ([3; 2; 1; 0] ++ [5 - 1]) with [3; 2; 1; 0; 4].
  rewrite Hnew. rewrite (decide_True (P := 5 = 5)) by done.
  rewrite decide_False by lia.
  destruct fuel; cbn [while_independent]; rewrite Hsize; by rewrite decide_False by lia.
Qed.

Lemma no_cap_without_positive_max_tries (fuel : nat) :
  maybe_regular_expander fuel 5 4 0 [] = (OutOfFuel, []).
Proof.
  rewrite maybe_regular_expander_valid by (split; [reflexivity|lia]).
  change (seq 0 (Z.to_nat (4 `div` 2))) with [0; 1].
  change (Z.to_nat 5) with 5.
  destruct fuel as [|fuel]; [vm_compute; reflexivity|].
  unfold bind at 1. cbn [for_cycles]. unfold bind at 1.
  rewrite while_independent_first_cycle. cbn [fst snd]. unfold bind at 1.
  by rewrite while_independent_no_cap.
Qed.

(** * Further properties of the generator *)

Lemma cycles_inv_nil (n : nat) : cycles_inv n [] ∅.
Proof.
  split; [constructor|]. split.
  - intros e. split; [by intros ?%not_elem_of_empty|].
    by intros (c & ?%elem_of_nil & _).
  - intros i j ci cj u v _ Hi. by rewrite lookup_nil in Hi.
Qed.

Lemma cycles_inv_step (n : nat) (cycles : list (list nat)) (E : gset (nat * nat))
    (c : list nat) :
  hamiltonian n c → cycles_inv n cycles E →
  (∀ e, e ∈ pairwise_cyclic c → (e ∉ E) ∧ ((e.2, e.1) ∉ E)) →
  cycles_inv n (cycles ++ [c]) (E ∪ list_to_set (pairwise_cyclic c)).
Proof.
  intros Hc (Hham & Hunion & Hdisj) Hnew. split; [|split].
  - apply Forall_app. split; [done|by constructor].
  - intros e. rewrite elem_of_union, elem_of_list_to_set, Hunion. split.
    + intros [(c' & Hc' & He)|He].
      * exists c'. split; [|done]. apply elem_of_app. by left.
      * exists c. split; [|done]. apply elem_of_app. right. by left.
    + intros (c' & [Hc'|Hc'%list_elem_of_singleton]%elem_of_app & He).
      * left. eauto.
      * right. by subst.
  - intros i j ci cj u v Hij Hi Hj Hci Hcj.
    assert (i < length cycles).
    { apply lookup_lt_Some in Hj. rewrite length_app in Hj. simpl in Hj. lia. }
    rewrite lookup_app_l in Hi by done.
    destruct (decide (j < length cycles)) as [Hlt|Hge].
    + rewrite lookup_app_l in Hj by done. by eapply (Hdisj i j).
    + rewrite lookup_app_r in Hj by lia.
      apply list_elem_of_lookup_2, list_elem_of_singleton in Hj as ->.
      assert (Hin : ∀ a b, (a, b) ∈ pairwise_cyclic ci → (a, b) ∈ E).
      { intros a b Hab. apply Hunion. exists ci. split; [|done].
        by eapply list_elem_of_lookup_2. }
      destruct Hci as [Hci|Hci]; apply Hin in Hci;
        destruct Hcj as [Hcj|Hcj]; apply Hnew in Hcj as [? ?]; done.
Qed.

Section CycleLoops.
Context {RS : Type} `{!RandomState RS}.

Lemma drawn_cycle_hamiltonian (n : nat) (seed : RS) :
  1 ≤ n → hamiltonian n ((permutation (n - 1) seed).1 ++ [n - 1]).
Proof.
  intros Hn. split; [|apply last_snoc].
  apply cycle_perm; [done|apply permutation_perm].
Qed.

(** The invariant of both loops: [k] cycles have been accepted. *)
Lemma while_independent_cycles (fuel n i : nat) (iterations : Z)
    (cycles cycles' : list (list nat)) (E E' : gset (nat * nat)) (seed seed' : RS) :
  3 ≤ n →
  loop_inv n i cycles E ∨ loop_inv n (S i) cycles E →
  while_independent fuel n i iterations cycles E seed = (Return (cycles', E'), seed') →
  loop_inv n (S i) cycles' E'.
Proof.
  intros Hn. revert iterations cycles E seed.
  assert (Hexit : ∀ cycles E, size E = (i + 1) * n →
            loop_inv n i cycles E ∨ loop_inv n (S i) cycles E →
            loop_inv n (S i) cycles E).
  { intros cycles E Hsize [((Hs & _) & _)|?]; [lia|done]. }
  induction fuel as [|fuel IH]; intros iterations cycles E seed Hinv;
    cbn [while_independent].
  - destruct (decide (size E ≠ (i + 1) * n)) as [Hne|Heq]; [discriminate|].
    intros [= <- <- <-]. apply Hexit; [lia|done].
  - destruct (decide (size E ≠ (i + 1) * n)) as [Hne|Heq].
    + assert (Hi : loop_inv n i cycles E).
      { destruct Hinv as [?|((Hs & _) & _)]; [done|lia]. }
      pose proof (drawn_cycle_hamiltonian n seed) as Hham.
      destruct (permutation (n - 1) seed) as [p seed1]. cbn [fst] in Hham.
      specialize (Hham ltac:(lia)).
      destruct (decide (size (new_edges_of E (p ++ [n - 1])) = n)) as [Hacc|Hrej].
      * destruct (decide (iterations - 1 = 0)%Z); [discriminate|].
        apply IH. right.
        destruct Hham as [Hperm Hlast].
        apply new_edges_accepted in Hacc as [-> Hnew];
          [|by rewrite Hperm, length_seq].
        destruct Hi as (Hedge & Hcyc & Hlen). split; [|split].
        -- by apply edge_inv_step.
        -- by apply cycles_inv_step.
        -- rewrite length_app. simpl. lia.
      * destruct (decide (iterations - 1 = 0)%Z); [discriminate|].
        apply IH. by left.
    + intros [= <- <- <-]. apply Hexit; [lia|done].
Qed.

Lemma for_cycles_cycles (fuel n : nat) (max_tries : Z) (m a : nat)
    (cycles cycles' : list (list nat)) (E E' : gset (nat * nat)) (seed seed' : RS) :
  3 ≤ n → loop_inv n a cycles E →
  for_cycles fuel n max_tries (seq a m) cycles E seed = (Return (cycles', E'), seed') →
  loop_inv n (a + m) cycles' E'.
Proof.
  intros Hn. revert a cycles E seed.
  induction m as [|m IH]; intros a cycles E seed Hinv; simpl.
  - unfold ret. intros [= <- <- <-]. by rewrite Nat.add_0_r.
  - unfold bind.
    destruct (while_independent fuel n a max_tries cycles E seed)
      as [[[cycles1 E1]| |] seed1] eqn:Hwhile; try discriminate.
    intros Hfor. simpl in Hfor.
    apply IH in Hfor; [by rewrite Nat.add_succ_r|].
    eapply while_independent_cycles; eauto.
Qed.

Lemma maybe_regular_expander_cycles (fuel : nat) (n d max_tries : Z)
    (seed seed' : RS) (G : Graph) :
  maybe_regular_expander fuel n d max_tries seed = (Return G, seed') →
  (d `mod` 2 = 0 ∧ 2 ≤ d ∧ d ≤ n - 1)%Z
  ∧ ∃ cycles E, loop_inv (Z.to_nat n) (Z.to_nat (d `div` 2)) cycles E
                ∧ G = graph_of (Z.to_nat n) E.
Proof.
  intros Hret.
  pose proof (maybe_regular_expander_returns_valid _ _ _ _ _ _ _ Hret) as Hvalid.
  split; [done|].
  rewrite maybe_regular_expander_valid in Hret by done.
  unfold bind in Hret.
  destruct (for_cycles _ _ _ _ _ _ _) as [[[cycles E]| |] seed1] eqn:Hfor;
    try discriminate.
  injection Hret as <- <-. exists cycles, E. split; [|done].
  apply for_cycles_cycles in Hfor; [done|lia|].
  split; [apply edge_inv_empty|]. split; [apply cycles_inv_nil|done].
Qed.

End CycleLoops.

(** ** Walking along a cycle *)

Lemma pairwise_cyclic_consecutive (c : list nat) (k w v : nat) :
  c !! k = Some w → c !! S k = Some v → (w, v) ∈ pairwise_cyclic c.
Proof.
  destruct c as [|first b]; [done|]. intros Hw Hv. simpl in Hv.
  apply list_elem_of_lookup. exists k. unfold pairwise_cyclic.
  apply lookup_zip_with_Some. exists w, v. split; [done|]. split; [done|].
  rewrite lookup_app_l; [done|]. by eapply lookup_lt_Some.
Qed.

Lemma cycle_reach (R : relation nat) (c : list nat) (j : nat) (u v : nat) :
  (∀ a b, cycle_edge c a b → R a b) →
  c !! 0 = Some u → c !! j = Some v → rtc R u v ∧ rtc R v u.
Proof.
  intros HR Hu. revert v. induction j as [|j IH]; intros v Hv.
  - assert (u = v) as -> by congruence. done.
  - destruct (c !! j) as [w|] eqn:Hw.
    + destruct (IH w eq_refl) as [Huw Hwu].
      pose proof (pairwise_cyclic_consecutive c j w v Hw Hv) as Hwv.
      split.
      * eapply rtc_r; [done|]. apply HR. by left.
      * eapply rtc_l; [|done]. apply HR. by right.
    + apply lookup_ge_None in Hw. apply lookup_lt_Some in Hv. lia.
Qed.

Lemma loop_inv_neighbors (n k : nat) (cycles : list (list nat)) (E : gset (nat * nat))
    (u v : nat) :
  loop_inv n k cycles E →
  v ∈ neighbors (graph_of n E) u ↔ ∃ c, c ∈ cycles ∧ cycle_edge c u v.
Proof.
  intros (Hedge & (_ & Hunion & _) & _).
  rewrite (graph_of_neighbors n k E Hedge), !Hunion. unfold cycle_edge.
  split.
  - intros [(c & ? & ?)|(c & ? & ?)]; exists c; auto.
  - intros (c & ? & [?|?]); [left|right]; eauto.
Qed.

Lemma loop_inv_connected (n k : nat) (cycles : list (list nat)) (E : gset (nat * nat)) :
  1 ≤ k → loop_inv n k cycles E → connected (graph_of n E).
Proof.
  intros Hk Hinv. pose proof Hinv as (Hedge & (Hham & _ & _) & Hlen).
  destruct cycles as [|c cycles]; [simpl in Hlen; lia|].
  apply Forall_cons in Hham as [[Hperm _] _].
  intros u v. rewrite (graph_of_nodes n k E Hedge), <-!Hperm.
  intros [i Hi]%list_elem_of_lookup [j Hj]%list_elem_of_lookup.
  set (R := λ a b : nat, b ∈ neighbors (graph_of n E) a).
  assert (HR : ∀ a b, cycle_edge c a b → R a b).
  { intros a b Hab. apply (loop_inv_neighbors n k (c :: cycles) E a b Hinv).
    exists c. split; [by left|done]. }
  destruct (c !! 0) as [w|] eqn:Hw.
  - destruct (cycle_reach R c i w u HR Hw Hi) as [_ Huw].
    destruct (cycle_reach R c j w v HR Hw Hj) as [Hwv _].
    by etrans.
  - apply lookup_ge_None in Hw. apply lookup_lt_Some in Hi. lia.
Qed.

(** ** What holds of every graph the generator returns *)

Section Returned.
Context {RS : Type} `{!RandomState RS}.
Variable eigsh_LM2 : Graph → outcome (R * R).

Lemma returned_generated (fuel : nat) (n d max_tries : Z) (epsilon : R)
    (G : Graph) (seed seed' : RS) :
  maybe_regular_expander fuel n d max_tries seed = (Return G, seed')
  ∨ random_regular_expander_graph eigsh_LM2 fuel n d epsilon max_tries seed
    = (Return G, seed') →
  ∃ s s' : RS, maybe_regular_expander fuel n d max_tries s = (Return G, s').
Proof.
  intros [Hret|Hret]; [by exists seed, seed'|].
  by apply random_regular_expander_graph_generated in Hret as [? _].
Qed.

(** X1.  The graph is the union of [d / 2] Hamiltonian cycles, no two of which
    share an edge. *)
Theorem generated_graph_cycle_decomposition (fuel : nat) (n d max_tries : Z)
    (epsilon : R) (G : Graph) (seed seed' : RS) :
  maybe_regular_expander fuel n d max_tries seed = (Return G, seed')
  ∨ random_regular_expander_graph eigsh_LM2 fuel n d epsilon max_tries seed
    = (Return G, seed') →
  ∃ cycles,
    Z.of_nat (length cycles) = (d `div` 2)%Z
    ∧ Forall (hamiltonian (Z.to_nat n)) cycles
    ∧ (∀ u v, v ∈ neighbors G u ↔ ∃ c, c ∈ cycles ∧ cycle_edge c u v)
    ∧ (∀ i j ci cj u v, i < j → cycles !! i = Some ci → cycles !! j = Some cj →
         cycle_edge ci u v → ¬ cycle_edge cj u v).
Proof.
  intros (s & s' & Hret)%returned_generated.
  apply maybe_regular_expander_cycles in Hret
    as [(Heven & Hd & Hn) (cycles & E & Hinv & ->)].
  exists cycles. pose proof Hinv as (_ & (Hham & _ & Hdisj) & Hlen).
  assert (0 ≤ d `div` 2)%Z by (pose proof (Z.div_mod d 2); lia).
  split; [lia|]. split; [done|]. split; [|done].
  intros u v. by eapply loop_inv_neighbors.
Qed.

(** X2.  Every node reaches every other node. *)
Theorem generated_graph_connected (fuel : nat) (n d max_tries : Z)
    (epsilon : R) (G : Graph) (seed seed' : RS) :
  maybe_regular_expander fuel n d max_tries seed = (Return G, seed')
  ∨ random_regular_expander_graph eigsh_LM2 fuel n d epsilon max_tries seed
    = (Return G, seed') →
  connected G.
Proof.
  intros (s & s' & Hret)%returned_generated.
  apply maybe_regular_expander_cycles in Hret
    as [(Heven & Hd & Hn) (cycles & E & Hinv & ->)].
  eapply loop_inv_connected; [|done].
  pose proof (Z.div_mod d 2). lia.
Qed.

(** X3.  The graph has [n * d / 2] edges, and adjacency is symmetric. *)
Theorem generated_graph_edge_count (fuel : nat) (n d max_tries : Z)
    (epsilon : R) (G : Graph) (seed seed' : RS) :
  maybe_regular_expander fuel n d max_tries seed = (Return G, seed')
  ∨ random_regular_expander_graph eigsh_LM2 fuel n d epsilon max_tries seed
    = (Return G, seed') →
  Z.of_nat (length (edges G)) = ((n * d) `div` 2)%Z
  ∧ (∀ u v, v ∈ neighbors G u → u ∈ neighbors G v)
  ∧ (∀ u v, (u, v) ∈ edges G ↔ u < v ∧ v ∈ neighbors G u).
Proof.
  intros (s & s' & Hret)%returned_generated.
  apply maybe_regular_expander_cycles in Hret
    as [(Heven & Hd & Hn) (cycles & E & (Hinv & _) & ->)].
  assert (Hd2 : d = (2 * (d `div` 2))%Z) by (pose proof (Z.div_mod d 2); lia).
  split; [|split].
  - rewrite (length_edges_graph_of _ _ _ Hinv), Nat2Z.inj_mul, !Z2Nat.id by lia.
    rewrite Hd2 at 2. rewrite (Z.mul_comm 2), Z.mul_assoc, Z.div_mul by lia. lia.
  - intros u v. apply (graph_of_symmetric _ _ _ Hinv).
  - intros u v.
    by rewrite (elem_of_edges_graph_of _ _ _ Hinv), (graph_of_neighbors _ _ _ Hinv).
Qed.

End Returned.

(** ** The checks of [is_regular_expander] *)

Lemma graph_of_is_regular (n k : nat) (E : gset (nat * nat)) :
  1 ≤ n → edge_inv n k E →
  is_regular (graph_of n E) = Return true
  ∧ degree (graph_of n E) (hd 0 (nodes (graph_of n E))) = 2 * k.
Proof.
  intros Hn Hinv. unfold is_regular. rewrite (graph_of_nodes n k E Hinv).
  destruct n as [|n]; [lia|]. cbn [seq hd]. split.
  - f_equal. apply forallb_forall. intros u Hu%list_elem_of_In.
    change (0 :: seq 1 n) with (seq 0 (S n)) in Hu. apply elem_of_seq in Hu.
    rewrite !(graph_of_degree _ _ _ Hinv) by lia. apply Nat.eqb_refl.
  - apply (graph_of_degree _ _ _ Hinv). lia.
Qed.

Section Checks.
Context {RS : Type} `{!RandomState RS}.
Variable eigsh_LM2 : Graph → outcome (R * R).

Lemma is_regular_expander_generated (fuel : nat) (n d max_tries : Z) (epsilon : R)
    (G : Graph) :
  generated (RS:=RS) fuel n d max_tries G → (0 <= epsilon)%R →
  is_regular_expander eigsh_LM2 G epsilon = spectral_test eigsh_LM2 d epsilon G.
Proof.
  intros [(Heven & Hd & Hn) (E & Hinv & ->)]%generated_graph_of Heps.
  assert (Hn1 : 1 ≤ Z.to_nat n) by lia.
  destruct (graph_of_is_regular _ _ E Hn1 Hinv) as [Hreg Hdeg].
  unfold is_regular_expander, spectral_test.
  rewrite decide_False by lra. rewrite Hreg, Hdeg.
  destruct (eigsh_LM2 _) as [lams| |]; [|done|done].
  unfold spectral_bound.
  assert (Hd2 : Z.of_nat (2 * Z.to_nat (d `div` 2)) = d)
    by (pose proof (Z.div_mod d 2); lia).
  rewrite Hd2. by rewrite decide_False by lia.
Qed.



(** X6.  A graph with two nodes of different degree is rejected whatever its
    eigenvalues are: the solver is not consulted. *)
Theorem irregular_graph_rejected (G : Graph) (epsilon : R) (u v : nat) :
  (0 <= epsilon)%R → u ∈ nodes G → v ∈ nodes G → degree G u ≠ degree G v →
  is_regular_expander eigsh_LM2 G epsilon = Return false.
Proof.
  intros Heps Hu Hv Hne. unfold is_regular_expander.
  rewrite decide_False by lra.
  assert (Hreg : is_regular G = Return false); [|by rewrite Hreg].
  unfold is_regular. destruct (nodes G) as [|n1 rest] eqn:Hnodes;
    [by apply elem_of_nil in Hu|].
  f_equal. apply not_true_is_false. intros Hall.
  rewrite forallb_forall in Hall.
  apply list_elem_of_In, Hall, Nat.eqb_eq in Hu.
  apply list_elem_of_In, Hall, Nat.eqb_eq in Hv. congruence.
Qed.

End Checks.

(** ** The exceptions of the generator *)

Section Exceptions.
Context {RS : Type} `{!RandomState RS}.
Variable eigsh_LM2 : Graph → outcome (R * R).

Lemma while_independent_raises (fuel n i : nat) (iterations : Z)
    (cycles : list (list nat)) (E : gset (nat * nat)) (seed seed' : RS) (e : exn) :
  while_independent fuel n i iterations cycles E seed = (Raise e, seed') →
  e = NetworkXError "Too many iterations in maybe_regular_expander"
  ∧ (1 ≤ iterations)%Z.
Proof.
  revert iterations cycles E seed.
  induction fuel as [|fuel IH]; intros iterations cycles E seed;
    cbn [while_independent];
    (destruct (decide (size E ≠ (i + 1) * n)); [|discriminate]); [discriminate|].
  destruct (permutation (n - 1) seed) as [p seed1].
  destruct (decide (size (new_edges_of E (p ++ [n - 1])) = n));
    (destruct (decide (iterations - 1 = 0)%Z);
     [intros [= <- <-]; split; [done|lia]
     |intros [-> ?]%IH; split; [done|lia]]).
Qed.

Lemma for_cycles_raises (fuel n : nat) (max_tries : Z) (idxs : list nat)
    (cycles : list (list nat)) (E : gset (nat * nat)) (seed seed' : RS) (e : exn) :
  for_cycles fuel n max_tries idxs cycles E seed = (Raise e, seed') →
  e = NetworkXError "Too many iterations in maybe_regular_expander"
  ∧ (1 ≤ max_tries)%Z.
Proof.
  revert cycles E seed.
  induction idxs as [|i idxs IH]; intros cycles E seed; [discriminate|].
  cbn [for_cycles]. unfold bind.
  destruct (while_independent fuel n i max_tries cycles E seed)
    as [[[cycles1 E1]| |] seed1] eqn:Hwhile.
  - apply IH.
  - intros [= <- <-]. by eapply while_independent_raises.
  - discriminate.
Qed.

Lemma maybe_regular_expander_raises (fuel : nat) (n d max_tries : Z)
    (seed seed' : RS) (e : exn) :
  maybe_regular_expander fuel n d max_tries seed = (Raise e, seed') →
  ((d `mod` 2 ≠ 0 ∨ d < 2 ∨ n - 1 < d ∨ n < 1)%Z ∧ seed' = seed
   ∧ ∃ msg, e = NetworkXError msg)
  ∨ ((d `mod` 2 = 0 ∧ 2 ≤ d ∧ d ≤ n - 1)%Z
     ∧ e = NetworkXError "Too many iterations in maybe_regular_expander"
     ∧ (1 ≤ max_tries)%Z).
Proof.
  intros Hraise.
  destruct (decide (d `mod` 2 ≠ 0 ∨ d < 2 ∨ n - 1 < d ∨ n < 1)%Z) as [Hbad|Hok].
  - left. split; [done|].
    destruct (maybe_regular_expander_invalid fuel n d max_tries seed Hbad) as [msg Hmsg].
    rewrite Hmsg in Hraise. injection Hraise as <- <-. eauto.
  - right. assert (Hvalid : (d `mod` 2 = 0 ∧ 2 ≤ d ∧ d ≤ n - 1)%Z) by lia.
    split; [done|].
    rewrite maybe_regular_expander_valid in Hraise by done.
    unfold bind in Hraise.
    destruct (for_cycles _ _ _ _ _ _ _) as [[[cycles E]| |] seed1] eqn:Hfor;
      try discriminate.
    injection Hraise as <- <-. by eapply for_cycles_raises.
Qed.

(** X7.  The only exceptions of [maybe_regular_expander]: a [NetworkXError] of
    the argument checks, raised without drawing, when the arguments are
    invalid; and otherwise "Too many iterations", which needs a positive
    [max_tries]: with [max_tries <= 0] and valid arguments nothing is ever
    raised. *)
Theorem maybe_regular_expander_exceptions (fuel : nat) (n d max_tries : Z)
    (seed seed' : RS) (e : exn) :
  maybe_regular_expander fuel n d max_tries seed = (Raise e, seed') →
  ((d `mod` 2 ≠ 0 ∨ d < 2 ∨ n - 1 < d ∨ n < 1)%Z ∧ seed' = seed
   ∧ ∃ msg, e = NetworkXError msg)
  ∨ ((d `mod` 2 = 0 ∧ 2 ≤ d ∧ d ≤ n - 1)%Z
     ∧ e = NetworkXError "Too many iterations in maybe_regular_expander"
     ∧ (1 ≤ max_tries)%Z).
Proof. apply maybe_regular_expander_raises. Qed.

Lemma while_not_expander_raises (fuel0 fuel : nat) (n d : Z) (epsilon : R)
    (max_tries iterations : Z) (G : Graph) (seed seed' : RS) (e : exn) :
  (0 <= epsilon)%R →
  generated (RS:=RS) fuel0 n d max_tries G →
  while_not_expander eigsh_LM2 fuel0 fuel n d epsilon max_tries iterations G seed
  = (Raise e, seed') →
  e = NetworkXError "Too many iterations in maybe_regular_expander"
  ∨ e = NetworkXError "Too many iterations in random_regular_expander_graph"
  ∨ ∃ G', eigsh_LM2 G' = Raise e.
Proof.
  intros Heps. revert iterations G seed.
  assert (Hcheck : ∀ G, generated (RS:=RS) fuel0 n d max_tries G →
            is_regular_expander eigsh_LM2 G epsilon = Raise e →
            eigsh_LM2 G = Raise e).
  { intros G Hgen. rewrite (is_regular_expander_generated _ _ _ _ _ _ _ Hgen Heps).
    unfold spectral_test. destruct (eigsh_LM2 G); [done| |done]. by intros [= ->]. }
  induction fuel as [|fuel IH]; intros iterations G seed Hgen;
    cbn [while_not_expander];
    destruct (is_regular_expander eigsh_LM2 G epsilon) as [[|]| |] eqn:Hacc;
    try discriminate.
  - intros [= <- <-]. right. right. exists G. by apply Hcheck.
  - destruct (maybe_regular_expander fuel0 n d max_tries seed)
      as [[G1| |] seed1] eqn:Hgen1; [| |discriminate].
    + destruct (decide (iterations - 1 = 0)%Z).
      * intros [= <- <-]. auto.
      * apply IH. by exists seed, seed1.
    + intros [= <- <-]. left.
      apply maybe_regular_expander_raises in Hgen1 as [(Hbad & _)|(_ & ? & _)]; [|done].
      apply generated_graph_of in Hgen as [? _]. lia.
  - intros [= <- <-]. right. right. exists G. by apply Hcheck.
Qed.

Lemma random_regular_expander_graph_raises (fuel : nat) (n d max_tries : Z)
    (epsilon : R) (seed seed' : RS) (e : exn) :
  (0 <= epsilon)%R →
  random_regular_expander_graph eigsh_LM2 fuel n d epsilon max_tries seed
  = (Raise e, seed') →
  ((d `mod` 2 ≠ 0 ∨ d < 2 ∨ n - 1 < d ∨ n < 1)%Z ∧ seed' = seed
   ∧ ∃ msg, e = NetworkXError msg)
  ∨ e = NetworkXError "Too many iterations in maybe_regular_expander"
  ∨ e = NetworkXError "Too many iterations in random_regular_expander_graph"
  ∨ ∃ G, eigsh_LM2 G = Raise e.
Proof.
  intros Heps. unfold random_regular_expander_graph, bind.
  destruct (maybe_regular_expander fuel n d max_tries seed)
    as [[G0| |] seed0] eqn:Hgen0; [| |discriminate].
  - intros Hraise. right.
    eapply while_not_expander_raises; [done| |done]. by exists seed, seed0.
  - intros [= <- <-].
    apply maybe_regular_expander_raises in Hgen0 as [?|(_ & ? & _)]; auto.
Qed.

(** X8.  The only exceptions of [random_regular_expander_graph] when
    [epsilon >= 0]: the [NetworkXError] of the argument checks, the two
    "Too many iterations" errors, and what the eigenvalue solver raises. *)
Theorem random_regular_expander_graph_exceptions (fuel : nat) (n d max_tries : Z)
    (epsilon : R) (seed seed' : RS) (e : exn) :
  (0 <= epsilon)%R →
  random_regular_expander_graph eigsh_LM2 fuel n d epsilon max_tries seed
  = (Raise e, seed') →
  ((d `mod` 2 ≠ 0 ∨ d < 2 ∨ n - 1 < d ∨ n < 1)%Z ∧ seed' = seed
   ∧ ∃ msg, e = NetworkXError msg)
  ∨ e = NetworkXError "Too many iterations in maybe_regular_expander"
  ∨ e = NetworkXError "Too many iterations in random_regular_expander_graph"
  ∨ ∃ G, eigsh_LM2 G = Raise e.
Proof. apply random_regular_expander_graph_raises. Qed.

End Exceptions.

(** ** Caps, a single draw, and graphs too small to lift *)

Section More.
Context {RS : Type} `{!RandomState RS}.
Variable eigsh_LM2 : Graph → outcome (R * R).

(** X9.  With [max_tries >= 1], fuel [max_tries] lets every call come to its
    end: no loop makes more than [max_tries] passes. *)
Theorem positive_max_tries_bounds_the_loops (fuel : nat) (n d max_tries : Z)
    (epsilon : R) (seed : RS) :
  (1 ≤ max_tries)%Z → Z.to_nat max_tries ≤ fuel →
  (maybe_regular_expander fuel n d max_tries seed).1 ≠ OutOfFuel
  ∧ ((∀ G, eigsh_LM2 G ≠ OutOfFuel) →
     (random_regular_expander_graph eigsh_LM2 fuel n d epsilon max_tries seed).1
     ≠ OutOfFuel).
Proof.
  intros Hpos Hfuel. split.
  - apply maybe_regular_expander_ends; lia.
  - intros Hends. apply random_regular_expander_graph_ends; [done|lia|done].
Qed.

(** X10.  For [d = 2] (and [max_tries] other than 1) one permutation is drawn and
    the cycle through it is returned. *)
Theorem two_regular_is_first_cycle (fuel : nat) (n max_tries : Z) (seed : RS) :
  (3 ≤ n)%Z → max_tries ≠ 1%Z →
  maybe_regular_expander (S fuel) n 2 max_tries seed
  = (Return (graph_of (Z.to_nat n)
               (list_to_set
                  (pairwise_cyclic
                     ((permutation (Z.to_nat n - 1) seed).1 ++ [Z.to_nat n - 1])))),
     (permutation (Z.to_nat n - 1) seed).2).
Proof.
  intros Hn Hmt.
  rewrite maybe_regular_expander_valid by (split; [reflexivity|lia]).
  change (seq 0 (Z.to_nat (2 `div` 2))) with [0].
  unfold bind at 1. cbn [for_cycles]. unfold bind at 1.
  cbn [while_independent]. rewrite size_empty, decide_True by lia.
  pose proof (permutation_perm (Z.to_nat n - 1) seed) as Hperm.
  destruct (permutation (Z.to_nat n - 1) seed) as [p seed1]. cbn [fst snd] in *.
  apply (cycle_perm (Z.to_nat n)) in Hperm; [|lia].
  assert (Hnew : new_edges_of ∅ (p ++ [Z.to_nat n - 1])
                 = list_to_set (pairwise_cyclic (p ++ [Z.to_nat n - 1]))).
  { unfold new_edges_of. f_equal. apply filter_all.
    intros e _. split; apply not_elem_of_empty. }
  assert (Hsize : size (new_edges_of ∅ (p ++ [Z.to_nat n - 1])) = Z.to_nat n)
    by by apply new_edges_of_empty.
  rewrite decide_True by done. rewrite decide_False by lia.
  rewrite Hnew in *. rewrite (left_id_L ∅ (∪)).
  assert (Hstop : ∀ fuel' it cycles,
            while_independent fuel' (Z.to_nat n) 0 it cycles
              (list_to_set (pairwise_cyclic (p ++ [Z.to_nat n - 1]))) seed1
            = (Return (cycles, list_to_set (pairwise_cyclic (p ++ [Z.to_nat n - 1]))),
               seed1)).
  { intros fuel' it cycles.
    destruct fuel'; cbn [while_independent]; rewrite Hsize;
      by rewrite decide_False by lia. }
  rewrite Hstop. reflexivity.
Qed.

Import ExpanderGraphLifting.

(** X11.  A graph with at most [node_degree] nodes cannot be lifted: the call
    raises a [NetworkXError] and the global generator is not touched.  The
    same holds for a degree below 2 and for an odd degree. *)
Theorem lift_topology_too_few_nodes {Base X : Type} (fuel : nat) (self : t Base)
    (data : Data X) (global : RS) :
  (num_nodes data ≤ node_degree self ∨ node_degree self < 2
   ∨ node_degree self `mod` 2 ≠ 0)%Z →
  ∃ msg, lift_topology eigsh_LM2 fuel self data global
         = (Raise (NetworkXError msg), global).
Proof.
  intros Hbad.
  destruct (maybe_regular_expander_invalid fuel (num_nodes data) (node_degree self)
              100 global) as [msg Hmsg]; [lia|].
  exists msg. rewrite lift_topology_unfold.
  unfold random_regular_expander_graph. by rewrite (bind_raise _ _ _ _ _ Hmsg).
Qed.

(** X12.  [lift_topology] comes to its end with fuel 100, and when it raises,
    the exception is a [NetworkXError] from the generator or an exception
    of the eigenvalue solver. *)
Theorem lift_topology_outcomes {Base X : Type} (fuel : nat) (self : t Base)
    (data : Data X) (global : RS) :
  100 ≤ fuel → (∀ G, eigsh_LM2 G ≠ OutOfFuel) →
  (lift_topology eigsh_LM2 fuel self data global).1 ≠ OutOfFuel
  ∧ ∀ e, (lift_topology eigsh_LM2 fuel self data global).1 = Raise e →
         (∃ msg, e = NetworkXError msg) ∨ (∃ G, eigsh_LM2 G = Raise e).
Proof.
  intros Hfuel Hends. split; [by apply lift_topology_ends|].
  intros e. rewrite lift_topology_unfold.
  destruct (random_regular_expander_graph _ _ _ _ _ _ _) as [[G| |] g1] eqn:Hgen;
    [done| |done].
  intros [= ->].
  assert (Heps : (0 <= 0)%R) by lra.
  apply (random_regular_expander_graph_raises _ _ _ _ _ _ _ _ _ Heps) in Hgen
    as [(_ & _ & ?)|[->|[->|?]]]; eauto.
Qed.

End More.

(** ** The properties at concrete calls *)


Lemma generated_graph_cycle_decomposition_witness :
  ∃ G, (maybe_regular_expander 10 5 2 100 [0; 1]).1 = Return G
  ∧ ∃ cycles,
    Z.of_nat (length cycles) = (2 `div` 2)%Z
    ∧ Forall (hamiltonian (Z.to_nat 5)) cycles
    ∧ (∀ u v, v ∈ neighbors G u ↔ ∃ c, c ∈ cycles ∧ cycle_edge c u v)
    ∧ (∀ i j ci cj u v, i < j → cycles !! i = Some ci → cycles !! j = Some cj →
         cycle_edge ci u v → ¬ cycle_edge cj u v).
Proof.
  eexists. split; [vm_compute; reflexivity|].
  eapply (generated_graph_cycle_decomposition (eigsh_const (0, 0)%R) 10 5 2 100 0%R
            _ [0; 1]).
  left. vm_compute. reflexivity.
Defined.

Lemma generated_graph_connected_witness :
  ∃ G, (maybe_regular_expander 10 5 2 100 [0; 1]).1 = Return G ∧ connected G.
Proof.
  eexists. split; [vm_compute; reflexivity|].
  eapply (generated_graph_connected (eigsh_const (0, 0)%R) 10 5 2 100 0%R _ [0; 1]).
  left. vm_compute. reflexivity.
Defined.

Lemma generated_graph_edge_count_witness :
  ∃ G, (maybe_regular_expander 10 5 2 100 [0; 1]).1 = Return G
  ∧ Z.of_nat (length (edges G)) = ((5 * 2) `div` 2)%Z
  ∧ (∀ u v, v ∈ neighbors G u → u ∈ neighbors G v)
  ∧ (∀ u v, (u, v) ∈ edges G ↔ u < v ∧ v ∈ neighbors G u).
Proof.
  eexists. split; [vm_compute; reflexivity|].
  eapply (generated_graph_edge_count (eigsh_const (0, 0)%R) 10 5 2 100 0%R _ [0; 1]).
  left. vm_compute. reflexivity.
Defined.



Lemma irregular_graph_rejected_witness :
  is_regular_expander eigsh_pentagon
    (add_edges_from [(0, 1); (1, 2)] (empty_graph 3)) 0
  = Return false.
Proof.
  apply (irregular_graph_rejected eigsh_pentagon _ 0%R 0 1).
  - lra.
  - vm_compute. apply list_elem_of_In. simpl. tauto.
  - vm_compute. apply list_elem_of_In. simpl. tauto.
  - vm_compute. lia.
Defined.

Lemma maybe_regular_expander_exceptions_witness :
  maybe_regular_expander 10 3 2 1 [0; 0]
  = (Raise (NetworkXError "Too many iterations in maybe_regular_expander"), [])
  ∧ (((2 `mod` 2 ≠ 0 ∨ 2 < 2 ∨ 3 - 1 < 2 ∨ 3 < 1)%Z ∧ [] = [0; 0]
      ∧ ∃ msg, NetworkXError "Too many iterations in maybe_regular_expander"
               = NetworkXError msg)
     ∨ ((2 `mod` 2 = 0 ∧ 2 ≤ 2 ∧ 2 ≤ 3 - 1)%Z
        ∧ NetworkXError "Too many iterations in maybe_regular_expander"
          = NetworkXError "Too many iterations in maybe_regular_expander"
        ∧ (1 ≤ 1)%Z)).
Proof.
  split; [vm_compute; reflexivity|].
  apply (maybe_regular_expander_exceptions 10 3 2 1 [0; 0] []).
  vm_compute. reflexivity.
Defined.

Lemma random_regular_expander_graph_tries_out :
  random_regular_expander_graph eigsh_pentagon 10 3 2 0 1 [0; 0]
  = (Raise (NetworkXError "Too many iterations in maybe_regular_expander"), []).
Proof.
  unfold random_regular_expander_graph.
  apply bind_raise. vm_compute. reflexivity.
Qed.

Lemma random_regular_expander_graph_exceptions_witness :
  ((2 `mod` 2 ≠ 0 ∨ 2 < 2 ∨ 3 - 1 < 2 ∨ 3 < 1)%Z ∧ [] = [0; 0]
   ∧ ∃ msg, NetworkXError "Too many iterations in maybe_regular_expander"
            = NetworkXError msg)
  ∨ NetworkXError "Too many iterations in maybe_regular_expander"
    = NetworkXError "Too many iterations in maybe_regular_expander"
  ∨ NetworkXError "Too many iterations in maybe_regular_expander"
    = NetworkXError "Too many iterations in random_regular_expander_graph"
  ∨ ∃ G, eigsh_pentagon G
         = Raise (NetworkXError "Too many iterations in maybe_regular_expander").
Proof.
  apply (random_regular_expander_graph_exceptions eigsh_pentagon 10 3 2 1 0%R
           [0; 0] []); [lra|].
  apply random_regular_expander_graph_tries_out.
Defined.

Lemma positive_max_tries_bounds_the_loops_witness :
  (maybe_regular_expander 100 5 2 100 [0; 1]).1 ≠ OutOfFuel
  ∧ ((∀ G, eigsh_pentagon G ≠ OutOfFuel) →
     (random_regular_expander_graph eigsh_pentagon 100 5 2 0 100 [0; 1]).1
     ≠ OutOfFuel).
Proof.
  apply (positive_max_tries_bounds_the_loops eigsh_pentagon 100 5 2 100 0%R [0; 1]);
    lia.
Defined.

Lemma two_regular_is_first_cycle_witness :
  maybe_regular_expander 1 5 2 100 [0; 1]
  = (Return (graph_of (Z.to_nat 5)
               (list_to_set
                  (pairwise_cyclic
                     ((permutation (Z.to_nat 5 - 1) [0; 1]).1 ++ [Z.to_nat 5 - 1])))),
     (permutation (Z.to_nat 5 - 1) [0; 1]).2).
Proof. apply (two_regular_is_first_cycle 0 5 100 [0; 1]); lia. Defined.

Lemma lift_topology_too_few_nodes_witness :
  ∃ msg, ExpanderGraphLifting.lift_topology eigsh_pentagon 10 lifting_2
           (ExpanderGraphLifting.mkData 2 [10; 20]%Z) [0; 1]
         = (Raise (NetworkXError msg), [0; 1]).
Proof.
  apply (lift_topology_too_few_nodes eigsh_pentagon 10 lifting_2
           (ExpanderGraphLifting.mkData 2 [10; 20]%Z) [0; 1]).
  left. simpl. lia.
Defined.

Lemma lift_topology_outcomes_witness :
  (ExpanderGraphLifting.lift_topology eigsh_pentagon 100 lifting_2 pentagon_data
     [0; 1]).1 ≠ OutOfFuel
  ∧ ∀ e, (ExpanderGraphLifting.lift_topology eigsh_pentagon 100 lifting_2
            pentagon_data [0; 1]).1 = Raise e →
         (∃ msg, e = NetworkXError msg) ∨ (∃ G, eigsh_pentagon G = Raise e).
Proof.
  apply (lift_topology_outcomes eigsh_pentagon 100 lifting_2 pentagon_data [0; 1]);
    [lia|].
  intros G. discriminate.
Defined.

(** ** Rows and stored entries of the incidence tensor *)

Lemma elem_of_row_columns (A : sparse_matrix) (r c : nat) :
  c ∈ row_columns (tensor_of A) r ↔ ∃ v, (r, c, v) ∈ coo_entries A.
Proof.
  unfold row_columns, tensor_of, tocoo. simpl.
  rewrite elem_of_list_to_set, list_elem_of_fmap, zip_fmap_same. split.
  - intros ([r' c'] & -> & [Hc ([[r1 c1] v] & [= -> ->] & Hin)%list_elem_of_fmap]%list_elem_of_filter).
    simpl in *. subst. by exists v.
  - intros [v Hin]. exists (r, c). split; [done|].
    apply list_elem_of_filter. split; [done|].
    apply list_elem_of_fmap. by exists (r, c, v).
Qed.

Lemma coo_column_NoDup (A : sparse_matrix) (c : nat) (rows : list nat) :
  NoDup rows →
  NoDup (rows ≫= λ r, match stored A !! (r, c) with
                       | Some v => [(r, c, v)]
                       | None => []
                       end).
Proof.
  intros Hnd. apply NoDup_bind; [| |done].
  - intros r1 r2 e _ _ H1 H2.
    destruct (stored A !! (r1, c)); [|by apply elem_of_nil in H1].
    destruct (stored A !! (r2, c)); [|by apply elem_of_nil in H2].
    apply list_elem_of_singleton in H1, H2. congruence.
  - intros r _. destruct (stored A !! (r, c)); [apply NoDup_singleton|constructor].
Qed.

Lemma coo_entries_NoDup (A : sparse_matrix) : NoDup (coo_entries A).
Proof.
  unfold coo_entries. apply NoDup_bind; [| |apply NoDup_seq].
  - intros c1 c2 e _ _
      (r1 & H1 & _)%list_elem_of_bind (r2 & H2 & _)%list_elem_of_bind.
    destruct (stored A !! (r1, c1)); [|by apply elem_of_nil in H1].
    destruct (stored A !! (r2, c2)); [|by apply elem_of_nil in H2].
    apply list_elem_of_singleton in H1, H2. congruence.
  - intros c _. apply coo_column_NoDup, NoDup_seq.
Qed.

Lemma coo_indices_NoDup (A : sparse_matrix) :
  NoDup (zip (indices (tensor_of A)).1 (indices (tensor_of A)).2).
Proof.
  unfold tensor_of, tocoo. simpl. rewrite zip_fmap_same.
  apply NoDup_fmap_2_strong; [|apply coo_entries_NoDup].
  intros [[r1 c1] v1] [[r2 c2] v2]
    (_ & _ & H1)%elem_of_coo_entries (_ & _ & H2)%elem_of_coo_entries [= -> ->].
  congruence.
Qed.

Section GraphOfRows.
Variables (n k : nat) (E : gset (nat * nat)).
Hypothesis Hinv : edge_inv n k E.

Lemma row_columns_graph_of (u c : nat) :
  c ∈ row_columns (tensor_of (incidence_matrix (graph_of n E))) u
  ↔ ∃ a b, edges (graph_of n E) !! c = Some (a, b) ∧ (u = a ∨ u = b).
Proof.
  rewrite elem_of_row_columns.
  setoid_rewrite (coo_entries_graph_of n k E Hinv). split.
  - by intros (x & _ & Hc).
  - intros Hc. by exists 1%Z.
Qed.

Lemma row_columns_graph_of_size (u : nat) :
  u < n → size (row_columns (tensor_of (incidence_matrix (graph_of n E))) u) = 2 * k.
Proof.
  intros Hu. rewrite <-(graph_of_neighbors_size n k E Hinv u Hu).
  set (other := λ c, match edges (graph_of n E) !! c with
                     | Some (a, b) => if decide (a = u) then b else a
                     | None => 0
                     end).
  rewrite <-(size_set_map_inj_on other
               (row_columns (tensor_of (incidence_matrix (graph_of n E))) u)).
  - f_equal. apply set_eq. intros x. rewrite elem_of_map. split.
    + intros (c & -> & (a & b & Hc & Hab)%row_columns_graph_of).
      unfold other. rewrite Hc.
      pose proof (list_elem_of_lookup_2 _ _ _ Hc) as Hin.
      apply (elem_of_edges_graph_of n k E Hinv) in Hin as [Hlt HE].
      apply (graph_of_neighbors n k E Hinv).
      destruct (decide (a = u)) as [Heq|Hne]; [by subst|].
      destruct Hab as [Hua|Hub]; [done|subst; tauto].
    + intros Hx.
      pose proof (graph_of_no_self_loop n k E Hinv u) as Hself.
      assert (x ≠ u) by (by intros ->).
      apply (graph_of_neighbors n k E Hinv) in Hx.
      destruct (decide (u < x)).
      * assert ((u, x) ∈ edges (graph_of n E)) as Hin
          by (apply (elem_of_edges_graph_of n k E Hinv); tauto).
        apply list_elem_of_lookup in Hin as [c Hc].
        exists c. split.
        -- unfold other. by rewrite Hc, decide_True.
        -- apply row_columns_graph_of. eauto.
      * assert ((x, u) ∈ edges (graph_of n E)) as Hin
          by (apply (elem_of_edges_graph_of n k E Hinv); split; [lia|tauto]).
        apply list_elem_of_lookup in Hin as [c Hc].
        exists c. split.
        -- unfold other. by rewrite Hc, decide_False.
        -- apply row_columns_graph_of. eauto.
  - intros c c' (a & b & Hc & Hab)%row_columns_graph_of
      (a' & b' & Hc' & Hab')%row_columns_graph_of.
    unfold other. rewrite Hc, Hc'. intros Hother.
    apply (NoDup_lookup _ _ _ (a, b) (edges_graph_of_NoDup n k E Hinv)); [done|].
    rewrite Hc'. f_equal.
    apply (edges_graph_of_lookup n k E Hinv) in Hc, Hc'.
    repeat case_decide; f_equal; lia.
Qed.

Lemma coo_column_length (c : nat) :
  c < k * n →
  length (seq 0 n ≫= λ r,
            match stored (incidence_matrix (graph_of n E)) !! (r, c) with
            | Some v => [(r, c, v)]
            | None => []
            end) = 2.
Proof.
  intros Hc. set (col := seq 0 n ≫= _).
  assert (Hin : ∀ e, e ∈ col ↔
            e.1.1 < n ∧ e.1.2 = c
            ∧ stored (incidence_matrix (graph_of n E)) !! (e.1.1, c) = Some e.2).
  { intros [[r c'] v]. unfold col. rewrite list_elem_of_bind. simpl. split.
    - intros (r' & He & Hr%elem_of_seq).
      destruct (stored _ !! (r', c)) eqn:Hst; [|by apply elem_of_nil in He].
      apply list_elem_of_singleton in He as [= -> -> ->]. split; [lia|done].
    - intros (Hr & -> & Hst). exists r. rewrite Hst.
      split; [by apply list_elem_of_singleton|apply elem_of_seq; lia]. }
  rewrite <-(column_nodes_graph_of_size n k E Hinv c Hc).
  rewrite <-(length_fmap (λ e : nat * nat * Z, e.1.1) col).
  rewrite <-(size_list_to_set (C:=gset nat)).
  - f_equal. apply set_eq. intros r.
    rewrite elem_of_list_to_set, list_elem_of_fmap, elem_of_column_nodes.
    setoid_rewrite elem_of_coo_entries.
    rewrite (incidence_graph_of_shape n k E Hinv). simpl. split.
    + intros ([[r' c'] v] & -> & (Hr & Hc' & Hst)%Hin). simpl in *. eauto.
    + intros (v & Hr & _ & Hst). exists (r, c, v). split; [done|]. by apply Hin.
  - apply NoDup_fmap_2_strong; [|apply coo_column_NoDup, NoDup_seq].
    intros [[r1 c1] v1] [[r2 c2] v2] (_ & H1 & Hs1)%Hin (_ & H2 & Hs2)%Hin Heq.
    simpl in *. subst. congruence.
Qed.

Lemma length_bind_const {A B} (f : A → list B) (l : list A) (m : nat) :
  (∀ a, a ∈ l → length (f a) = m) → length (l ≫= f) = length l * m.
Proof.
  induction l as [|a l IH]; intros Hl; [done|].
  rewrite bind_cons, length_app, IH, Hl; [simpl; lia|left|].
  intros b Hb. apply Hl. by right.
Qed.

Lemma coo_entries_graph_of_length :
  length (coo_entries (incidence_matrix (graph_of n E))) = n * (2 * k).
Proof.
  unfold coo_entries. rewrite (incidence_graph_of_shape n k E Hinv). simpl.
  rewrite (length_bind_const _ _ 2), length_seq; [lia|].
  intros c Hc%elem_of_seq. apply coo_column_length. lia.
Qed.

End GraphOfRows.

Section LiftedRows.
Context {RS : Type} `{!RandomState RS}.
Variable eigsh_LM2 : Graph → outcome (R * R).
Context {Base X : Type}.
Implicit Types (self : ExpanderGraphLifting.t Base) (data : ExpanderGraphLifting.Data X).

Import ExpanderGraphLifting.

(** X22.  In the incidence tensor that [lift_topology] returns every node
    is in exactly [node_degree] hyperedges, no index pair is stored twice,
    and [n * d] values are stored. *)
Theorem lift_topology_node_membership (fuel : nat) self data (global global' : RS)
    (out : topology X) :
  lift_topology eigsh_LM2 fuel self data global = (Return out, global') →
  let n := num_nodes data in
  let d := node_degree self in
  let T := incidence_hyperedges out in
  (∀ u, u < Z.to_nat n → Z.of_nat (size (row_columns T u)) = d)
  ∧ NoDup (zip (indices T).1 (indices T).2)
  ∧ length (indices T).1 = length (values T)
  ∧ length (indices T).2 = length (values T)
  ∧ Z.of_nat (length (values T)) = (n * d)%Z.
Proof.
  rewrite lift_topology_unfold. intros Hlift n d T. subst T.
  destruct (random_regular_expander_graph _ _ _ _ _ _ _) as [[G| |] g1] eqn:Hgen;
    try discriminate.
  injection Hlift as <- _. cbn [incidence_hyperedges].
  apply random_regular_expander_graph_generated in Hgen as [Hgen _].
  apply generated_graph_of in Hgen as [(Heven & Hd & Hn) (E & Hinv & ->)].
  fold n d in Heven, Hd, Hn, Hinv. fold n d.
  assert (Hd2 : d = (2 * (d `div` 2))%Z) by (pose proof (Z.div_mod d 2); lia).
  split; [|split; [apply coo_indices_NoDup|]].
  - intros u Hu. rewrite (row_columns_graph_of_size _ _ _ Hinv) by done. lia.
  - unfold tensor_of, tocoo, sparse_coo_tensor.
    cbn [indices values coo_row coo_col coo_data fst snd]. rewrite !length_fmap.
    split; [done|]. split; [done|].
    rewrite (coo_entries_graph_of_length _ _ _ Hinv). lia.
Qed.

End LiftedRows.

Lemma lift_topology_node_membership_witness :
  Z.of_nat (size (row_columns
                    (ExpanderGraphLifting.incidence_hyperedges
                       (pentagon_topology [0; 4; 0; 1; 1; 2; 2; 3; 3; 4]
                                          [0; 0; 1; 1; 2; 2; 3; 3; 4; 4])) 3))
  = 2%Z
  ∧ Z.of_nat (length (values
                        (ExpanderGraphLifting.incidence_hyperedges
                           (pentagon_topology [0; 4; 0; 1; 1; 2; 2; 3; 3; 4]
                                              [0; 0; 1; 1; 2; 2; 3; 3; 4; 4]))))
    = (5 * 2)%Z.
Proof.
  destruct (lift_topology_node_membership eigsh_pentagon 10 lifting_2
              pentagon_data [0; 0; 0; 0; 0; 1; 0; 0] [0; 1; 0; 0] _
              lift_topology_pentagon_first)
    as (Hrows & _ & _ & _ & Hvalues).
  split; [apply Hrows; simpl; lia|exact Hvalues].
Defined.

(** ** Where the randomness of [lift_topology] comes from *)

Section Draws.
Context {RS : Type} `{!RandomState RS}.
Variable eigsh_LM2 : Graph → outcome (R * R).

(** No call takes draws back. *)
Lemma while_independent_draws (fuel n i : nat) (iterations : Z)
    (cycles : list (list nat)) (E : gset (nat * nat)) (s : RS * nat) :
  s.2 ≤ (while_independent fuel n i iterations cycles E s).2.2
  ∧ (size E ≠ (i + 1) * n →
     ∀ ce, (while_independent fuel n i iterations cycles E s).1 = Return ce →
           S s.2 ≤ (while_independent fuel n i iterations cycles E s).2.2).
Proof.
  revert iterations cycles E s.
  induction fuel as [|fuel IH]; intros iterations cycles E s;
    cbn [while_independent]; destruct (decide (size E ≠ (i + 1) * n)) as [Hne|Heq];
    try (split; [done|]; done).
  cbn [permutation counted_RandomState].
  destruct (permutation (n - 1) s.1) as [p s1]. cbn [fst snd].
  destruct (decide (size (new_edges_of E (p ++ [n - 1])) = n));
    (destruct (decide (iterations - 1 = 0)%Z);
     [cbn [fst snd]; split; [lia|done]
     |match goal with
      | |- context [while_independent fuel n i ?it ?cs ?E' ?s'] =>
          destruct (IH it cs E' s') as [Hle _]; cbn [fst snd] in Hle;
          split; [lia|intros _ ce _; lia]
      end]).
Qed.

Lemma for_cycles_draws (fuel n : nat) (max_tries : Z) (m a : nat)
    (cycles cycles' : list (list nat)) (E E' : gset (nat * nat)) (s s' : RS * nat) :
  3 ≤ n → edge_inv n a E →
  for_cycles fuel n max_tries (seq a m) cycles E s = (Return (cycles', E'), s') →
  s.2 + m ≤ s'.2.
Proof.
  intros Hn. revert a cycles E s.
  induction m as [|m IH]; intros a cycles E s Hinv; cbn [seq for_cycles].
  - intros [= _ _ <-]. lia.
  - unfold bind at 1.
    destruct (while_independent fuel n a max_tries cycles E s)
      as [[[cycles1 E1]| |] s1] eqn:Hwhile; [|discriminate|discriminate].
    intros Hrest.
    assert (Hinv1 : edge_inv n (S a) E1)
      by exact (while_independent_inv fuel n a max_tries cycles cycles1 E E1 s s1
                  Hn (or_introl Hinv) Hwhile).
    apply IH in Hrest; [|done].
    destruct (while_independent_draws fuel n a max_tries cycles E s) as [_ Hdraw].
    rewrite Hwhile in Hdraw. cbn [fst snd] in Hdraw.
    assert (S s.2 ≤ s1.2); [|lia].
    apply (Hdraw ltac:(destruct Hinv as [-> _]; nia) (cycles1, E1)). done.
Qed.

Lemma for_cycles_keeps_draws (fuel n : nat) (max_tries : Z) (idxs : list nat)
    (cycles : list (list nat)) (E : gset (nat * nat)) (s : RS * nat) :
  s.2 ≤ (for_cycles fuel n max_tries idxs cycles E s).2.2.
Proof.
  revert cycles E s.
  induction idxs as [|i idxs IH]; intros cycles E s; cbn [for_cycles]; [done|].
  unfold bind at 1.
  destruct (while_independent_draws fuel n i max_tries cycles E s) as [Hle _].
  destruct (while_independent fuel n i max_tries cycles E s)
    as [[[cycles1 E1]| |] s1]; cbn [fst snd] in *; [|done|done].
  specialize (IH cycles1 E1 s1). lia.
Qed.

Lemma maybe_regular_expander_draws (fuel : nat) (n d max_tries : Z) (s : RS * nat) :
  s.2 ≤ (maybe_regular_expander fuel n d max_tries s).2.2
  ∧ ∀ G, (maybe_regular_expander fuel n d max_tries s).1 = Return G →
         s.2 + Z.to_nat (d `div` 2)
         ≤ (maybe_regular_expander fuel n d max_tries s).2.2.
Proof.
  destruct (decide (d `mod` 2 ≠ 0 ∨ d < 2 ∨ n - 1 < d ∨ n < 1)%Z) as [Hbad|Hok].
  - destruct (maybe_regular_expander_invalid fuel n d max_tries s Hbad) as [msg ->].
    split; [done|]. intros G. discriminate.
  - assert (Hvalid : (d `mod` 2 = 0 ∧ 2 ≤ d ∧ d ≤ n - 1)%Z) by lia.
    rewrite maybe_regular_expander_valid by done. unfold bind.
    pose proof (for_cycles_keeps_draws fuel (Z.to_nat n) max_tries
                  (seq 0 (Z.to_nat (d `div` 2))) [] ∅ s) as Hle.
    destruct (for_cycles _ _ _ _ _ _ _) as [[[cycles E]| |] s1] eqn:Hfor;
      cbn [fst snd ret] in *; (split; [done|]); try discriminate.
    intros G _.
    apply for_cycles_draws in Hfor; [done|lia|apply edge_inv_empty].
Qed.

Lemma while_not_expander_draws (fuel0 fuel : nat) (n d : Z) (epsilon : R)
    (max_tries iterations : Z) (G : Graph) (s : RS * nat) :
  s.2 ≤ (while_not_expander eigsh_LM2 fuel0 fuel n d epsilon max_tries iterations
           G s).2.2.
Proof.
  revert iterations G s.
  induction fuel as [|fuel IH]; intros iterations G s; cbn [while_not_expander];
    destruct (is_regular_expander eigsh_LM2 G epsilon) as [[|]| |]; try done.
  destruct (maybe_regular_expander_draws fuel0 n d max_tries s) as [Hle _].
  destruct (maybe_regular_expander fuel0 n d max_tries s) as [[G1| |] s1];
    cbn [fst snd] in *; [|done|done].
  destruct (decide (iterations - 1 = 0)%Z); [done|].
  specialize (IH (iterations - 1)%Z G1 s1). lia.
Qed.

Lemma random_regular_expander_graph_draws (fuel : nat) (n d max_tries : Z)
    (epsilon : R) (G : Graph) (s s' : RS * nat) :
  random_regular_expander_graph eigsh_LM2 fuel n d epsilon max_tries s
  = (Return G, s') →
  (1 ≤ d `div` 2)%Z ∧ s.2 + Z.to_nat (d `div` 2) ≤ s'.2.
Proof.
  unfold random_regular_expander_graph, bind.
  destruct (maybe_regular_expander_draws fuel n d max_tries s) as [_ Hdraw].
  destruct (maybe_regular_expander fuel n d max_tries s) as [[G0| |] s0] eqn:Hgen;
    [|discriminate|discriminate].
  apply maybe_regular_expander_returns_valid in Hgen as (Heven & Hd & _).
  specialize (Hdraw G0 eq_refl). cbn [fst snd] in Hdraw.
  intros Hwhile.
  pose proof (while_not_expander_draws fuel fuel n d epsilon max_tries max_tries
                G0 s0) as Hle.
  rewrite Hwhile in Hle. cbn [fst snd] in Hle.
  split; [|lia]. pose proof (Z.div_mod d 2). lia.
Qed.

Context {Base X : Type}.
Implicit Types (self : ExpanderGraphLifting.t Base) (data : ExpanderGraphLifting.Data X).

Import ExpanderGraphLifting.

(** C3 (amended).  [lift_topology] passes no seed, so its permutations are
    drawn from the global generator: a call that returns has drawn at least
    [node_degree / 2] permutations, which is at least one, from the global
    generator, and has left it advanced. *)
Theorem lift_topology_draws_from_global (fuel : nat) self data
    (global global' : RS) (drawn drawn' : nat) (out : topology X) :
  lift_topology eigsh_LM2 fuel self data (global, drawn)
  = (Return out, (global', drawn')) →
  (1 ≤ node_degree self `div` 2)%Z
  ∧ drawn + Z.to_nat (node_degree self `div` 2) ≤ drawn'.
Proof.
  rewrite lift_topology_unfold.
  destruct (random_regular_expander_graph _ _ _ _ _ _ _) as [[G| |] g1] eqn:Hgen;
    [|discriminate|discriminate].
  intros [= _ ->].
  by apply random_regular_expander_graph_draws in Hgen.
Qed.

(** A solver that puts every generated graph at or above the bound keeps
    [random_regular_expander_graph] from returning. *)
Lemma while_not_expander_rejecting (fuel0 fuel : nat) (n d : Z)
    (max_tries iterations : Z) (G G' : Graph) (s s' : RS) :
  (∀ G, generated (RS:=RS) fuel0 n d max_tries G →
        is_regular_expander eigsh_LM2 G 0 = Return false) →
  generated (RS:=RS) fuel0 n d max_tries G →
  while_not_expander eigsh_LM2 fuel0 fuel n d 0 max_tries iterations G s
  ≠ (Return G', s').
Proof.
  intros Hrej. revert iterations G s.
  induction fuel as [|fuel IH]; intros iterations G s Hgen;
    cbn [while_not_expander]; rewrite (Hrej G Hgen); [done|].
  destruct (maybe_regular_expander fuel0 n d max_tries s) as [[G1| |] s1] eqn:Hgen1;
    [|done|done].
  destruct (decide (iterations - 1 = 0)%Z); [done|].
  apply IH. by exists s, s1.
Qed.

End Draws.

Lemma eigsh_square_rejected {RS : Type} `{!RandomState RS} (fuel : nat)
    (n max_tries : Z) (G : Graph) :
  generated (RS:=RS) fuel n 2 max_tries G →
  is_regular_expander eigsh_square G 0 = Return false.
Proof.
  intros Hgen.
  rewrite (is_regular_expander_generated eigsh_square fuel n 2 max_tries 0 G Hgen)
    by lra.
  unfold spectral_test, eigsh_square, eigsh_const. cbn [fst snd]. f_equal.
  apply bool_decide_eq_false.
  replace (2 - 1)%Z with 1%Z by lia.
  rewrite sqrt_1, Rpower_1 by lra.
  rewrite Rmin_right by lra. rewrite Rabs_left by lra. lra.
Qed.

Lemma eigsh_square_rounded_accepted (G : Graph) :
  is_regular G = Return true →
  degree G (hd 0 (nodes G)) = 2 →
  is_regular_expander eigsh_square_rounded G 0 = Return true.
Proof.
  intros Hreg Hdeg.
  apply (is_regular_expander_accepts _ _ _ 2%R
           (2, -2 + 1 / 4503599627370496)%R); [lra|done|done| |].
  - rewrite Hdeg. apply spectral_bound_2.
  - cbn [fst snd]. rewrite Rmin_right by lra. rewrite Rabs_left by lra. lra.
Qed.

Lemma lift_topology_square_rounded :
  ∃ out global',
    ExpanderGraphLifting.lift_topology eigsh_square_rounded 10 lifting_2 square_data
      [0; 0; 0] = (Return out, global').
Proof.
  assert (∃ G s', maybe_regular_expander 10 4 2 100 [0; 0; 0] = (Return G, s')
                  ∧ is_regular G = Return true ∧ degree G (hd 0 (nodes G)) = 2)
    as (G & s' & Hgen & Hreg & Hdeg)
    by (do 2 eexists; split; [|split]; vm_compute; reflexivity).
  do 2 eexists. rewrite lift_topology_unfold.
  change (ExpanderGraphLifting.num_nodes square_data) with 4%Z.
  change (ExpanderGraphLifting.node_degree lifting_2) with 2%Z.
  rewrite (random_regular_expander_graph_first eigsh_square_rounded 10 4 2 0 100
             G [0; 0; 0] s' Hgen); [reflexivity|].
  by apply eigsh_square_rounded_accepted.
Qed.

Lemma lift_topology_square (fuel : nat) (out : ExpanderGraphLifting.topology (list Z))
    (global' : list nat) :
  ExpanderGraphLifting.lift_topology eigsh_square fuel lifting_2 square_data [0; 0; 0]
  ≠ (Return out, global').
Proof.
  rewrite lift_topology_unfold.
  change (ExpanderGraphLifting.num_nodes square_data) with 4%Z.
  change (ExpanderGraphLifting.node_degree lifting_2) with 2%Z.
  destruct (random_regular_expander_graph _ _ _ _ _ _ _) as [[G| |] g1] eqn:Hgen;
    [|done|done].
  exfalso. revert Hgen. unfold random_regular_expander_graph, bind.
  destruct (maybe_regular_expander fuel 4 2 100 [0; 0; 0]) as [[G0| |] s0] eqn:Hgen0;
    [|done|done].
  apply while_not_expander_rejecting.
  - intros G1. apply eigsh_square_rejected.
  - by exists [0; 0; 0], s0.
Qed.

Lemma lift_topology_pentagon_hyperedges (global global' : list nat) (c : list nat) :
  maybe_regular_expander 10 5 2 100 global = (Return (cycle_graph c), global') →
  is_regular (cycle_graph c) = Return true →
  degree (cycle_graph c) (hd 0 (nodes (cycle_graph c))) = 2 →
  ∃ out,
    ExpanderGraphLifting.lift_topology eigsh_pentagon 10 lifting_2 pentagon_data global
    = (Return out, global')
    ∧ hyperedges (ExpanderGraphLifting.incidence_hyperedges out)
      = hyperedges (tensor_of (incidence_matrix (cycle_graph c))).
Proof.
  intros Hgen Hreg Hdeg. eexists. split; [by apply lift_topology_pentagon|done].
Qed.

(** C3 (as stated it fails).  Two calls of [lift_topology] in a row, with
    the same data and the same [node_degree]: the second starts from the
    state in which the first left the global generator, and nodes 1 and 2
    share a hyperedge after the first call but not after the second.  And
    two calls from the same state of the global generator, on four nodes:
    one returns a descriptor and the other does not, when the answers of the
    eigenvalue solver differ in the last digit. *)
Lemma lift_topology_not_reproducible :
  (∃ out1 out2 global2,
     ExpanderGraphLifting.lift_topology eigsh_pentagon 10 lifting_2 pentagon_data
       [0; 0; 0; 0; 0; 1; 0; 0] = (Return out1, [0; 1; 0; 0])
     ∧ ExpanderGraphLifting.lift_topology eigsh_pentagon 10 lifting_2 pentagon_data
         [0; 1; 0; 0] = (Return out2, global2)
     ∧ {[1; 2]} ∈ hyperedges (ExpanderGraphLifting.incidence_hyperedges out1)
     ∧ {[1; 2]} ∉ hyperedges (ExpanderGraphLifting.incidence_hyperedges out2))
  ∧ (∃ out global',
       ExpanderGraphLifting.lift_topology eigsh_square_rounded 10 lifting_2
         square_data [0; 0; 0] = (Return out, global'))
  ∧ (∀ fuel out global',
       ExpanderGraphLifting.lift_topology eigsh_square fuel lifting_2 square_data
         [0; 0; 0] ≠ (Return out, global')).
Proof.
  split; [|split; [exact lift_topology_square_rounded|exact lift_topology_square]].
  destruct (lift_topology_pentagon_hyperedges [0; 0; 0; 0; 0; 1; 0; 0] [0; 1; 0; 0]
              [3; 2; 1; 0; 4]) as (out1 & Hrun1 & Hedges1);
    [vm_compute; reflexivity..|].
  destruct (lift_topology_pentagon_hyperedges [0; 1; 0; 0] [] [3; 2; 0; 1; 4])
    as (out2 & Hrun2 & Hedges2); [vm_compute; reflexivity..|].
  exists out1, out2, []. split; [done|]. split; [done|].
  rewrite Hedges1, Hedges2.
  split; apply (bool_decide_unpack _); vm_compute; reflexivity.
Qed.

Lemma lift_topology_pentagon_counted :
  ∃ out,
    ExpanderGraphLifting.lift_topology eigsh_pentagon 10 lifting_2 pentagon_data
      ([0; 0; 0; 0; 0; 1; 0; 0], 0)
    = (Return out, ([0; 1; 0; 0], 1)).
Proof.
  assert (∃ G, maybe_regular_expander 10 5 2 100 ([0; 0; 0; 0; 0; 1; 0; 0], 0)
                = (Return G, ([0; 1; 0; 0], 1))
               ∧ is_regular G = Return true ∧ degree G (hd 0 (nodes G)) = 2)
    as (G & Hgen & Hreg & Hdeg)
    by (eexists; split; [|split]; vm_compute; reflexivity).
  eexists. rewrite lift_topology_unfold.
  change (ExpanderGraphLifting.num_nodes pentagon_data) with 5%Z.
  change (ExpanderGraphLifting.node_degree lifting_2) with 2%Z.
  rewrite (random_regular_expander_graph_first eigsh_pentagon 10 5 2 0 100
             G ([0; 0; 0; 0; 0; 1; 0; 0], 0) ([0; 1; 0; 0], 1) Hgen); [reflexivity|].
  by apply eigsh_pentagon_accepted.
Qed.

Lemma lift_topology_draws_from_global_witness :
  ∃ out,
    ExpanderGraphLifting.lift_topology eigsh_pentagon 10 lifting_2 pentagon_data
      ([0; 0; 0; 0; 0; 1; 0; 0], 0)
    = (Return out, ([0; 1; 0; 0], 1))
    ∧ (1 ≤ 2 `div` 2)%Z ∧ 0 + Z.to_nat (2 `div` 2) ≤ 1.
Proof.
  destruct lift_topology_pentagon_counted as [out Hrun].
  exists out. split; [exact Hrun|].
  exact (lift_topology_draws_from_global eigsh_pentagon 10 lifting_2 pentagon_data
           [0; 0; 0; 0; 0; 1; 0; 0] [0; 1; 0; 0] 0 1 out Hrun).
Defined.

(** * The data pipeline *)

(** ** [DataTransform.forward] *)

Section Forward.
Context {Transform D : Type}.
Variable construct : transform_class → gmap string pyval → outcome Transform.
Variable call : Transform → D → result D.

(** X13.  A [DataTransform] made with [transform_name=None] is made without
    consulting the registry or a class, and cannot be applied: [forward]
    calls [None]. *)
Theorem forward_without_transform (kwargs : gmap string pyval) :
  ∃ self, DataTransform.__init__ construct None kwargs = Return self
          ∧ DataTransform.parameters self !! "transform_name" = Some PyNone
          ∧ ∀ data : D, DataTransform.forward call self data
                        = Err (TypeError "'NoneType' object is not callable").
Proof.
  eexists. split; [reflexivity|]. split; [|done].
  apply lookup_insert_eq.
Qed.

(** X14.  A [DataTransform] made with a name holds the object its registered
    class built from the keyword arguments with the name among them, the
    stored parameters are those arguments, and [forward] is the call of that
    object. *)
Theorem forward_calls_registered_transform (name : string)
    (kwargs : gmap string pyval) (self : DataTransform.t Transform) :
  DataTransform.__init__ construct (Some name) kwargs = Return self →
  ∃ cls tr,
    TRANSFORMS !! name = Some cls
    ∧ construct cls (DataTransform.parameters self) = Return tr
    ∧ DataTransform.parameters self !! "transform_name" = Some (PyStr name)
    ∧ (∀ key, key ≠ "transform_name" →
              DataTransform.parameters self !! key = kwargs !! key)
    ∧ ∀ data : D, DataTransform.forward call self data = call tr data.
Proof.
  unfold DataTransform.__init__.
  destruct (TRANSFORMS !! name) as [cls|] eqn:Hcls; [|discriminate].
  destruct (construct cls _) as [tr| |] eqn:Htr; [|discriminate|discriminate].
  intros [= <-]. exists cls, tr. cbn.
  split; [done|]. split; [done|]. split; [apply lookup_insert_eq|].
  split; [|done]. intros key Hkey. by apply lookup_insert_ne.
Qed.

End Forward.

Lemma forward_calls_registered_transform_witness :
  ∃ self,
    DataTransform.__init__ (λ cls _, Return cls) (Some "Identity")
      {["complex_dim" := PyInt 2]} = Return self
    ∧ ∃ cls tr,
        TRANSFORMS !! "Identity" = Some cls
        ∧ (λ cls _, Return cls) cls (DataTransform.parameters self) = Return tr
        ∧ DataTransform.parameters self !! "transform_name" = Some (PyStr "Identity")
        ∧ (∀ key, key ≠ "transform_name" →
                  DataTransform.parameters self !! key
                  = ({["complex_dim" := PyInt 2]} : gmap string pyval) !! key)
        ∧ ∀ data : nat, DataTransform.forward (λ _ d, Ok (S d)) self data
                        = (λ _ d, Ok (S d)) tr data.
Proof.
  eexists. split; [reflexivity|].
  apply (forward_calls_registered_transform (λ cls _, Return cls) (λ _ d, Ok (S d))
           "Identity" {["complex_dim" := PyInt 2]}).
  reflexivity.
Defined.

(** ** The loaders *)

Ltac by_compute := apply (bool_decide_unpack _); by vm_compute.

Lemma fixed_split_idx_partition (a b c : nat) :
  ∃ train valid test,
    fixed_split_idx a b c !! "train" = Some train
    ∧ fixed_split_idx a b c !! "valid" = Some valid
    ∧ fixed_split_idx a b c !! "test" = Some test
    ∧ dom (fixed_split_idx a b c) = {["train"; "valid"; "test"]}
    ∧ length train = a ∧ length valid = b ∧ length test = c
    ∧ train ++ valid ++ test = seq 0 (a + b + c).
Proof.
  unfold fixed_split_idx. do 3 eexists.
  split; [by rewrite !lookup_insert_ne, lookup_singleton_eq by done|].
  split; [by rewrite lookup_insert_ne, lookup_insert_eq by done|].
  split; [by rewrite lookup_insert_eq|].
  split; [rewrite !dom_insert_L, dom_singleton_L; set_solver|].
  rewrite !length_seq. split; [done|]. split; [lia|]. split; [lia|].
  replace (a + b - a) with b by lia.
  replace (a + b + c - (a + b)) with c by lia.
  rewrite !seq_app, !Nat.add_0_l. by rewrite <-app_assoc.
Qed.

Lemma lower_cocitation_other (name : string) :
  lower name ∈ cocitation_names →
  (name ∉ tu_names) ∧ (name ∉ ["ZINC"]) ∧ (name ∉ ["AQSOL"]) ∧ (name ∉ ["manual"]).
Proof.
  intros Hlow.
  assert (Hno : Forall (λ other, lower other ∉ cocitation_names)
                   (tu_names ++ ["ZINC"; "AQSOL"; "manual"])).
  { apply (bool_decide_unpack _). by vm_compute. }
  rewrite Forall_forall in Hno.
  repeat split; intros Hin; apply (Hno name); try done;
    unfold tu_names in *; set_solver.
Qed.

Section LoaderProperties.
Context {Dataset Config : Type}.
Variable Planetoid : string → string → result Dataset.
Variable TUDataset : string → string → bool → result Dataset.
Variable ZINC : string → bool → string → result Dataset.
Variable AQSOL : string → string → result Dataset.
Variable Preprocessor : string → Dataset + manual_data → Config → result Dataset.
Variable load_graph_cocitation_split : Dataset → loader_parameters → result Dataset.
Variable load_graph_tudataset_split : Dataset → loader_parameters → result Dataset.
Variable assing_train_val_test_mask_to_graphs :
  Dataset → gmap string (list nat) → result Dataset.
Variable len : Dataset → nat.
Variable concat : Dataset → Dataset → Dataset.

Local Notation "'load'" :=
  (GraphLoader_load Planetoid TUDataset ZINC AQSOL Preprocessor
     load_graph_cocitation_split load_graph_tudataset_split
     assing_train_val_test_mask_to_graphs len concat).

Lemma GraphLoader_load_other (self : loader Config) :
  lower (data_name (parameters self)) ∉ cocitation_names
  ∨ data_type (parameters self) ≠ "cocitation" →
  data_name (parameters self) ∉ tu_names →
  load self
  = if bool_decide (data_name (parameters self) ∈ ["ZINC"]) then
      try d0 <- ZINC (data_dir (parameters self)) true "train";
      try d1 <- ZINC (data_dir (parameters self)) true "val";
      try d2 <- ZINC (data_dir (parameters self)) true "test";
      if bool_decide (split_type (parameters self) = "fixed") then
        join_and_split Preprocessor assing_train_val_test_mask_to_graphs len concat
          self (os_path_join (data_dir (parameters self)) (data_name (parameters self)))
          d0 d1 d2
      else Err (Exn (AssertionError ""))
    else if bool_decide (data_name (parameters self) ∈ ["AQSOL"]) then
      try d0 <- AQSOL (data_dir (parameters self)) "train";
      try d1 <- AQSOL (data_dir (parameters self)) "val";
      try d2 <- AQSOL (data_dir (parameters self)) "test";
      join_and_split Preprocessor assing_train_val_test_mask_to_graphs len concat
        self (os_path_join (data_dir (parameters self)) (data_name (parameters self)))
        d0 d1 d2
    else if bool_decide (data_name (parameters self) ∈ ["manual"]) then
      ManualGraphLoader_load Preprocessor
        (mkLoader (parameters self) (transforms_config self))
    else
      Err (NotImplementedError
             ("Dataset " +:+ data_name (parameters self) +:+ " not implemented")).
Proof.
  intros Hco Htu. unfold GraphLoader_load.
  rewrite (bool_decide_eq_false_2 _ Htu).
  destruct Hco as [Hco|Hco]; rewrite (bool_decide_eq_false_2 _ Hco);
    by rewrite ?andb_false_r.
Qed.

(** X15.  A name of a cocitation dataset, in whatever case, with another
    [data_type] than "cocitation" is not implemented: nothing is loaded. *)
Theorem cocitation_name_needs_cocitation_type (self : loader Config) :
  lower (data_name (parameters self)) ∈ cocitation_names →
  data_type (parameters self) ≠ "cocitation" →
  load self
  = Err (NotImplementedError
           ("Dataset " +:+ data_name (parameters self) +:+ " not implemented")).
Proof.
  intros (Htu & Hzinc & Haqsol & Hmanual)%lower_cocitation_other Htype.
  rewrite GraphLoader_load_other by auto.
  by rewrite !bool_decide_eq_false_2 by done.
Qed.

(** X16.  The names of the TU datasets, of ZINC, of AQSOL and of the manual graph
    are matched as they are written: a name that is none of them, and that
    does not lower to a cocitation name, is not implemented, whatever
    [data_type] is. *)
Theorem unknown_name_not_implemented (self : loader Config) :
  lower (data_name (parameters self)) ∉ cocitation_names →
  data_name (parameters self) ∉ tu_names ++ ["ZINC"; "AQSOL"; "manual"] →
  load self
  = Err (NotImplementedError
           ("Dataset " +:+ data_name (parameters self) +:+ " not implemented")).
Proof.
  intros Hco Hother. rewrite GraphLoader_load_other; [|auto|set_solver].
  rewrite !bool_decide_eq_false_2; [done|set_solver..].
Qed.

(** X17.  What the ZINC branch (with [split_type] "fixed") and the AQSOL branch
    hand to [assing_train_val_test_mask_to_graphs] once the three parts are
    loaded: the joined dataset, preprocessed when there are transforms, and
    split indices that are computed from the lengths of the parts as they
    were loaded.  The three index lists are consecutive and together count
    through the joined parts. *)
Theorem fixed_splits_partition (self : loader Config) (d0 d1 d2 : Dataset) :
  let p := parameters self in
  (data_name p = "ZINC" ∧ split_type p = "fixed"
   ∧ ZINC (data_dir p) true "train" = Ok d0
   ∧ ZINC (data_dir p) true "val" = Ok d1
   ∧ ZINC (data_dir p) true "test" = Ok d2)
  ∨ (data_name p = "AQSOL"
     ∧ AQSOL (data_dir p) "train" = Ok d0
     ∧ AQSOL (data_dir p) "val" = Ok d1
     ∧ AQSOL (data_dir p) "test" = Ok d2) →
  ∃ split_idx train valid test,
    load self
    = (try joined <-
         match transforms_config self with
         | Some cfg =>
             Preprocessor (os_path_join (data_dir p) (data_name p))
               (inl (concat (concat d0 d1) d2)) cfg
         | None => Ok (concat (concat d0 d1) d2)
         end;
       assing_train_val_test_mask_to_graphs joined split_idx)
    ∧ split_idx !! "train" = Some train
    ∧ split_idx !! "valid" = Some valid
    ∧ split_idx !! "test" = Some test
    ∧ dom split_idx = {["train"; "valid"; "test"]}
    ∧ length train = len d0 ∧ length valid = len d1 ∧ length test = len d2
    ∧ train ++ valid ++ test = seq 0 (len d0 + len d1 + len d2).
Proof.
  intros p Hcase.
  destruct (fixed_split_idx_partition (len d0) (len d1) (len d2))
    as (train & valid & test & Hparts).
  exists (fixed_split_idx (len d0) (len d1) (len d2)), train, valid, test.
  split; [|done]. subst p.
  destruct Hcase as [(Hname & Hsplit & H0 & H1 & H2)|(Hname & H0 & H1 & H2)].
  - rewrite GraphLoader_load_other; rewrite Hname; [|left; by_compute|by_compute].
    rewrite bool_decide_eq_true_2 by set_solver.
    rewrite H0, H1, H2. cbn [result_bind].
    by rewrite Hsplit.
  - rewrite GraphLoader_load_other; rewrite Hname; [|left; by_compute|by_compute].
    rewrite bool_decide_eq_false_2 by by_compute.
    rewrite bool_decide_eq_true_2 by set_solver.
    by rewrite H0, H1, H2.
Qed.

(** X18.  ZINC is loaded only with the fixed split: with another [split_type] the
    call never returns a dataset, and once its three parts are loaded it
    fails the assertion before anything is preprocessed. *)
Theorem ZINC_requires_fixed_split (self : loader Config) :
  data_name (parameters self) = "ZINC" →
  split_type (parameters self) ≠ "fixed" →
  (∀ dataset, load self ≠ Ok dataset)
  ∧ ((∀ split, split ∈ ["train"; "val"; "test"] →
               ∃ d, ZINC (data_dir (parameters self)) true split = Ok d) →
     load self = Err (Exn (AssertionError ""))).
Proof.
  intros Hname Hsplit.
  assert (Hload : load self
            = (try d0 <- ZINC (data_dir (parameters self)) true "train";
               try d1 <- ZINC (data_dir (parameters self)) true "val";
               try d2 <- ZINC (data_dir (parameters self)) true "test";
               Err (Exn (AssertionError "")))).
  { rewrite GraphLoader_load_other; rewrite Hname; [|left; by_compute|by_compute].
    rewrite bool_decide_eq_true_2 by set_solver.
    by rewrite (bool_decide_eq_false_2 _ Hsplit). }
  rewrite Hload. split.
  - intros dataset. by repeat (destruct (ZINC _ _ _); cbn [result_bind]).
  - intros Hparts.
    destruct (Hparts "train") as [d0 ->]; [set_solver|].
    destruct (Hparts "val") as [d1 ->]; [set_solver|].
    by destruct (Hparts "test") as [d2 ->]; [set_solver|].
Qed.

(** X19.  The AQSOL branch reads neither [split_type] nor [data_type]: two
    loaders that agree on the directory and on the transforms give the same
    result. *)
Theorem AQSOL_ignores_split_type (self self' : loader Config) :
  data_name (parameters self) = "AQSOL" →
  data_name (parameters self') = "AQSOL" →
  data_dir (parameters self) = data_dir (parameters self') →
  transforms_config self = transforms_config self' →
  load self = load self'.
Proof.
  intros Hname Hname' Hdir Htransforms.
  rewrite !GraphLoader_load_other; rewrite ?Hname, ?Hname';
    try by_compute; try (left; by_compute).
  unfold join_and_split. by rewrite Hdir, Htransforms.
Qed.

(** X20.  Without transforms the manual graph cannot be loaded, through
    [ManualGraphLoader] or through [GraphLoader] with the name "manual":
    the variable that [load] returns was never bound. *)
Theorem manual_graph_needs_transforms (self : loader Config) :
  transforms_config self = None →
  ManualGraphLoader_load Preprocessor self = Err (UnboundLocalError "processor_dataset")
  ∧ (data_name (parameters self) = "manual" →
     load self = Err (UnboundLocalError "processor_dataset")).
Proof.
  intros Hnone. unfold ManualGraphLoader_load. rewrite Hnone. split; [done|].
  intros Hname.
  rewrite GraphLoader_load_other; rewrite Hname; [|left; by_compute|by_compute].
  rewrite !bool_decide_eq_false_2 by by_compute.
  rewrite bool_decide_eq_true_2 by set_solver.
  unfold ManualGraphLoader_load. cbn [transforms_config]. by rewrite Hnone.
Qed.

(** X21.  With transforms, the manual graph goes to the preprocessor with the
    joined directory.  Its data has 8 nodes with one feature and one label
    each; the edge index has 13 columns, although 17 edges are entered:
    every edge that was entered is there once, in one direction. *)
Theorem manual_graph_preprocessed (self : loader Config) (cfg : Config) :
  transforms_config self = Some cfg →
  data_name (parameters self) = "manual" →
  ∃ data,
    load self
    = Preprocessor (os_path_join (data_dir (parameters self)) "manual") (inr data) cfg
    ∧ ManualGraphLoader_load Preprocessor self = load self
    ∧ manual_num_nodes data = 8
    ∧ length (manual_x data) = 8 ∧ length (manual_y data) = 8
    ∧ length (manual_edge_index data).1 = 13
    ∧ length (manual_edge_index data).2 = 13
    ∧ NoDup (zip (manual_edge_index data).1 (manual_edge_index data).2)
    ∧ ∀ u v, (u, v) ∈ zip (manual_edge_index data).1 (manual_edge_index data).2 →
             u < 8 ∧ v < 8 ∧ u ≠ v
             ∧ (v, u) ∉ zip (manual_edge_index data).1 (manual_edge_index data).2.
Proof.
  intros Hcfg Hname. exists manual_simple_graph.
  assert (Hload : load self
            = Preprocessor (os_path_join (data_dir (parameters self)) "manual")
                (inr manual_simple_graph) cfg).
  { rewrite GraphLoader_load_other; rewrite Hname; [|left; by_compute|by_compute].
    rewrite !bool_decide_eq_false_2 by by_compute.
    rewrite bool_decide_eq_true_2 by set_solver.
    unfold ManualGraphLoader_load. cbn [transforms_config parameters].
    by rewrite Hcfg, Hname. }
  split; [done|]. split.
  { rewrite Hload. unfold ManualGraphLoader_load. by rewrite Hcfg, Hname. }
  do 5 (split; [reflexivity|]).
  split.
  - apply (bool_decide_unpack _). by vm_compute.
  - intros u v Huv. revert u v Huv.
    assert (Hall : Forall (λ e : nat * nat,
                     e.1 < 8 ∧ e.2 < 8 ∧ e.1 ≠ e.2
                     ∧ (e.2, e.1) ∉ zip (manual_edge_index manual_simple_graph).1
                                        (manual_edge_index manual_simple_graph).2)
                     (zip (manual_edge_index manual_simple_graph).1
                          (manual_edge_index manual_simple_graph).2)).
    { apply (bool_decide_unpack _). by vm_compute. }
    intros u v Huv. by apply (proj1 (Forall_forall _ _) Hall (u, v)).
Qed.

End LoaderProperties.

(** ** The loaders at concrete calls *)

Lemma cocitation_name_needs_cocitation_type_witness :
  toy_load (mkLoader (mkParameters "data" "Cora" "graph" "random") None)
  = Err (NotImplementedError "Dataset Cora not implemented").
Proof.
  apply (cocitation_name_needs_cocitation_type toy_Planetoid toy_TUDataset toy_ZINC
           toy_AQSOL toy_Preprocessor toy_split toy_split toy_mask length app
           (mkLoader (mkParameters "data" "Cora" "graph" "random") None)).
  - apply (bool_decide_unpack _). vm_compute. reflexivity.
  - apply (bool_decide_unpack _). vm_compute. reflexivity.
Defined.

Lemma unknown_name_not_implemented_witness :
  toy_load (mkLoader (mkParameters "data" "mutag" "cocitation" "random") None)
  = Err (NotImplementedError "Dataset mutag not implemented").
Proof.
  apply (unknown_name_not_implemented toy_Planetoid toy_TUDataset toy_ZINC
           toy_AQSOL toy_Preprocessor toy_split toy_split toy_mask length app
           (mkLoader (mkParameters "data" "mutag" "cocitation" "random") None)).
  - apply (bool_decide_unpack _). vm_compute. reflexivity.
  - apply (bool_decide_unpack _). vm_compute. reflexivity.
Defined.

Lemma fixed_splits_partition_witness :
  ∃ split_idx train valid test,
    toy_load (mkLoader (mkParameters "data" "ZINC" "graph" "fixed") (Some tt))
    = (try joined <- toy_Preprocessor (os_path_join "data" "ZINC")
                       (inl (([0; 1; 2] ++ [3]) ++ [4; 5])) tt;
       toy_mask joined split_idx)
    ∧ split_idx !! "train" = Some train
    ∧ split_idx !! "valid" = Some valid
    ∧ split_idx !! "test" = Some test
    ∧ dom split_idx = {["train"; "valid"; "test"]}
    ∧ length train = 3 ∧ length valid = 1 ∧ length test = 2
    ∧ train ++ valid ++ test = seq 0 (3 + 1 + 2).
Proof.
  apply (fixed_splits_partition toy_Planetoid toy_TUDataset toy_ZINC
           toy_AQSOL toy_Preprocessor toy_split toy_split toy_mask length app
           (mkLoader (mkParameters "data" "ZINC" "graph" "fixed") (Some tt))
           [0; 1; 2] [3] [4; 5]).
  left. repeat split; reflexivity.
Defined.

Lemma ZINC_requires_fixed_split_witness :
  (∀ dataset,
     toy_load (mkLoader (mkParameters "data" "ZINC" "graph" "random") None)
     ≠ Ok dataset)
  ∧ ((∀ split, split ∈ ["train"; "val"; "test"] →
               ∃ d, toy_ZINC "data" true split = Ok d) →
     toy_load (mkLoader (mkParameters "data" "ZINC" "graph" "random") None)
     = Err (Exn (AssertionError ""))).
Proof.
  apply (ZINC_requires_fixed_split toy_Planetoid toy_TUDataset toy_ZINC
           toy_AQSOL toy_Preprocessor toy_split toy_split toy_mask length app
           (mkLoader (mkParameters "data" "ZINC" "graph" "random") None)).
  - reflexivity.
  - apply (bool_decide_unpack _). vm_compute. reflexivity.
Defined.

Lemma manual_graph_needs_transforms_witness :
  ManualGraphLoader_load toy_Preprocessor
    (mkLoader (mkParameters "data" "manual" "graph" "random") None)
  = Err (UnboundLocalError "processor_dataset")
  ∧ (data_name (mkParameters "data" "manual" "graph" "random") = "manual" →
     toy_load (mkLoader (mkParameters "data" "manual" "graph" "random") None)
     = Err (UnboundLocalError "processor_dataset")).
Proof.
  apply (manual_graph_needs_transforms toy_Planetoid toy_TUDataset toy_ZINC
           toy_AQSOL toy_Preprocessor toy_split toy_split toy_mask length app
           (mkLoader (mkParameters "data" "manual" "graph" "random") None)).
  reflexivity.
Defined.

Lemma manual_graph_preprocessed_witness :
  ∃ data,
    toy_load (mkLoader (mkParameters "data" "manual" "graph" "random") (Some tt))
    = toy_Preprocessor (os_path_join "data" "manual") (inr data) tt
    ∧ ManualGraphLoader_load toy_Preprocessor
        (mkLoader (mkParameters "data" "manual" "graph" "random") (Some tt))
      = toy_load (mkLoader (mkParameters "data" "manual" "graph" "random") (Some tt))
    ∧ manual_num_nodes data = 8
    ∧ length (manual_x data) = 8 ∧ length (manual_y data) = 8
    ∧ length (manual_edge_index data).1 = 13
    ∧ length (manual_edge_index data).2 = 13
    ∧ NoDup (zip (manual_edge_index data).1 (manual_edge_index data).2)
    ∧ ∀ u v, (u, v) ∈ zip (manual_edge_index data).1 (manual_edge_index data).2 →
             u < 8 ∧ v < 8 ∧ u ≠ v
             ∧ (v, u) ∉ zip (manual_edge_index data).1 (manual_edge_index data).2.
Proof.
  apply (manual_graph_preprocessed toy_Planetoid toy_TUDataset toy_ZINC
           toy_AQSOL toy_Preprocessor toy_split toy_split toy_mask length app
           (mkLoader (mkParameters "data" "manual" "graph" "random") (Some tt)) tt);
    reflexivity.
Defined.

Lemma AQSOL_ignores_split_type_witness :
  toy_load (mkLoader (mkParameters "data" "AQSOL" "graph" "random") None)
  = toy_load (mkLoader (mkParameters "data" "AQSOL" "cocitation" "fixed") None).
Proof.
  apply (AQSOL_ignores_split_type toy_Planetoid toy_TUDataset toy_ZINC
           toy_AQSOL toy_Preprocessor toy_split toy_split toy_mask length app
           (mkLoader (mkParameters "data" "AQSOL" "graph" "random") None)
           (mkLoader (mkParameters "data" "AQSOL" "cocitation" "fixed") None));
    reflexivity.
Defined.
